(** * HPX task regions and the sender/receiver connect protocol

    A model of [hpx/parallel/task_region.hpp] (fork/join scopes with error
    aggregation) and of [hpx/basic_execution/sender.hpp] (the Sender
    capability, the [connect] customization point and [is_sender_to]). *)

From stdpp Require Import base option list.

(** ** Captured errors *)

Module Parallel.

(** A captured in-flight error ([boost::exception_ptr]).  What the code
    distinguishes with its [catch] clauses is whether the object is a
    [parallel::exception_list]; [task_canceled_exception] is the class
    declared at the top of the header. *)
#[warnings="-register-all"]
Inductive exception_ptr : Type :=
  | user_exception (tag : nat)
  | task_canceled_exception
  | thrown_list (el : list exception_ptr).

(** Modelled from the spec: [parallel::exception_list] lives in
    [hpx/parallel/exception_list.hpp]; it is an ordered sequence of opaque
    captured errors with a count, and [add] appends one captured error. *)
Definition exception_list : Type := list exception_ptr.

Definition add (errors : exception_list) (e : exception_ptr) : exception_list :=
  errors ++ [e].

Definition get_error_count (errors : exception_list) : nat := length errors.

Definition is_exception_list (e : exception_ptr) : bool :=
  match e with thrown_list _ => true | _ => false end.

(** [detail::handle_task_region_exceptions]: called inside a [catch (...)]
    block, [current] is [boost::current_exception()]. *)
Definition handle_task_region_exceptions
    (errors : exception_list) (current : exception_ptr) : exception_list :=
  match current with
  | thrown_list el => fold_left add el errors
  | e => add errors e
  end.

(** ** Futures and the handle, seen from the owning thread *)

(** Modelled from the spec: [hpx::future<void>] is the collaborator's
    completion handle.  From the owning thread only the final content of
    its shared state matters: [None] when the task returned, [Some e] when
    it raised [e] ([has_exception], [get_exception_ptr]). *)
Definition future : Type := option exception_ptr.

(** A task passed to [run] is described by what invoking it yields. *)
Definition task : Type := future.

(** Modelled from the spec: [hpx::async(f)] spawns [f] and returns the
    future of its invocation. *)
Definition async (g : task) : future := g.

Record task_region_handle : Type := mk_handle { tasks_ : list future }.

(** [task_region_handle()] *)
Definition new_handle : task_region_handle := {| tasks_ := [] |}.

(** One iteration of the loop in the continuation given to [dataflow]. *)
Definition collect (errors : exception_list) (f : future) : exception_list :=
  match f with
  | Some e => add errors e
  | None => errors
  end.

(** The continuation given to [dataflow] in [when]: [None] when it returns,
    [Some] when it throws [errors]. *)
Definition on_ready (errors : exception_list) (results : list future) : future :=
  let errors := fold_left collect results errors in
  match get_error_count errors with
  | 0 => None
  | S _ => Some (thrown_list errors)
  end.

(** [task_region_handle::when(exception_list&&)].  The returned future is
    given by the content it has once ready: [dataflow] runs the
    continuation when every future of [active] is ready. *)
Definition when (errors : exception_list) (trh : task_region_handle)
    : task_region_handle * future :=
  let active := tasks_ trh in
  let trh := {| tasks_ := [] |} in
  match active with
  | [] => (trh, None)
  | _ :: _ => (trh, on_ready errors active)
  end.

(** The two [catch] clauses of [task_region_handle::wait], applied to what
    [when().get()] yields. *)
Definition wait_catch (r : future) : future :=
  match r with
  | None => None
  | Some (thrown_list el) => Some (thrown_list el)
  | Some e => Some (thrown_list [e])
  end.

(** User code running inside a region: it receives the handle by reference
    and either returns or lets an error escape. *)
Definition region_body : Type :=
  task_region_handle -> task_region_handle * option exception_ptr.

(** [task_region_handle::run] *)
Definition run (g : task) : region_body := fun trh =>
  let result := async g in
  ({| tasks_ := tasks_ trh ++ [result] |}, None).

(** [task_region_handle::wait] *)
Definition wait : region_body := fun trh =>
  let '(trh, r) := when [] trh in
  (trh, wait_catch r).

(** [~task_region_handle()]: [hpx::wait_all(when())] joins without
    rethrowing. *)
Definition destroy (trh : task_region_handle) : task_region_handle :=
  fst (when [] trh).

(** Statements a body is made of. *)
Definition throw (e : exception_ptr) : region_body := fun trh => (trh, Some e).

Definition ret : region_body := fun trh => (trh, None).

Definition seq (a b : region_body) : region_body := fun trh =>
  let '(trh, r) := a trh in
  match r with
  | Some e => (trh, Some e)
  | None => b trh
  end.

(** [try { a } catch (...) {}] *)
Definition try_catch_all (a : region_body) : region_body := fun trh =>
  (fst (a trh), None).

Declare Scope region_scope.
Delimit Scope region_scope with region.
Bind Scope region_scope with region_body.
Notation "a ;; b" := (seq a b)
  (at level 100, b at level 200, right associativity) : region_scope.
Local Open Scope region_scope.

Definition run_all (gs : list task) : region_body :=
  foldr (fun g k => run g ;; k) ret gs.

(** The [try { ... } catch (...) { handle_task_region_exceptions(errors); }]
    pattern of the entry points. *)
Definition catch_into (errors : exception_list) (r : option exception_ptr)
    : exception_list :=
  match r with
  | Some e => handle_task_region_exceptions errors e
  | None => errors
  end.

(** [task_region(F&&)]: [None] when it returns, [Some] when it throws. *)
Definition task_region (f : region_body) : option exception_ptr :=
  let trh := new_handle in
  let errors : exception_list := [] in
  let '(trh, r) := f trh in
  let errors := catch_into errors r in
  let '(trh, r) := wait trh in
  let errors := catch_into errors r in
  let _ := destroy trh in
  match get_error_count errors with
  | 0 => None
  | S _ => Some (thrown_list errors)
  end.

(** [task_region_final(F&&)] *)
Definition task_region_final (f : region_body) : option exception_ptr :=
  task_region f.

(** [task_region(task_execution_policy const&, F&&)]: the content of the
    returned future once it is ready. *)
Definition task_region_async (f : region_body) : future :=
  let trh := new_handle in
  let errors : exception_list := [] in
  let '(trh, r) := f trh in
  let errors := catch_into errors r in
  let '(trh, result) := when errors trh in
  let _ := destroy trh in
  result.

(** [task_region_final(task_execution_policy const&, F&&)] *)
Definition task_region_final_async (f : region_body) : future :=
  task_region_async f.

(** The errors carried by the failed futures of a vector, in order. *)
Definition failures (results : list future) : list exception_ptr :=
  omap id results.

(** What an error escaping the body contributes to the aggregator. *)
Definition body_causes (r : option exception_ptr) : list exception_ptr :=
  match r with
  | None => []
  | Some (thrown_list el) => el
  | Some e => [e]
  end.

(** The error an entry point surfaces for a given aggregator. *)
Definition composite (errors : exception_list) : option exception_ptr :=
  match errors with
  | [] => None
  | _ :: _ => Some (thrown_list errors)
  end.

(** A cause that is not itself an aggregator. *)
Definition flat (e : exception_ptr) : Prop := is_exception_list e = false.

(** Number of causes a caller can enumerate in a surfaced error. *)
Definition cause_count (r : option exception_ptr) : nat :=
  match r with
  | None => 0
  | Some (thrown_list el) => length el
  | Some _ => 1
  end.

End Parallel.

(** ** The handle under interleaving

    [run] and [wait] called by any number of threads while tasks execute:
    every access to [tasks_] is a critical section of [mtx_], hence one
    atomic step; the completion of a task is a step of the runtime.  Each
    call of [wait] swaps into an [active] vector of its own, so several
    joins may be in progress at once. *)

Module Interleaving.

(** Modelled from the spec: the task-spawning collaborator.  A spawned
    task always runs to completion; [outcome] is what its future holds
    once [finished]. *)
Record spawned_task : Type :=
  mk_task { outcome : Parallel.future; finished : bool }.

(** The local vector [active] of one call of [when]; [returned] records
    that its join is over (the vector is kept as history). *)
Record join : Type := mk_join { active : list nat; returned : bool }.

Record state : Type := mk_state {
  pool : list spawned_task;      (* one entry per [hpx::async], a future is its index *)
  in_run : list nat;             (* [result] of the [run] calls that have not pushed yet *)
  tasks_ : list nat;             (* the handle's vector *)
  joins : list join              (* one entry per call of [wait], in the order of the swaps *)
}.

Inductive event : Type :=
  | run_async (g : Parallel.task)   (* [run]: [hpx::async(f)] *)
  | run_push (i : nat)              (* [run]: [tasks_.push_back(result)] under the lock *)
  | task_finish (i : nat)           (* the runtime completes task [i] *)
  | wait_swap                       (* [wait]: [std::swap(tasks_, active)] under the lock *)
  | wait_return (k : nat).          (* the [k]-th [wait]: the join is over, [get()] returns or throws *)

Definition initial : state :=
  {| pool := []; in_run := []; tasks_ := []; joins := [] |}.

Definition is_finished (s : state) (i : nat) : bool :=
  match pool s !! i with
  | Some t => finished t
  | None => false
  end.

Definition results (s : state) (active : list nat) : list Parallel.future :=
  omap (fun i => outcome <$> pool s !! i) active.

Definition step (s : state) (ev : event) : option state :=
  match ev with
  | run_async g =>
      Some {| pool := pool s ++ [{| outcome := Parallel.async g; finished := false |}];
              in_run := in_run s ++ [length (pool s)];
              tasks_ := tasks_ s;
              joins := joins s |}
  | run_push i =>
      if bool_decide (i ∈ in_run s) then
        Some {| pool := pool s;
                in_run := filter (fun j => j ≠ i) (in_run s);
                tasks_ := tasks_ s ++ [i];
                joins := joins s |}
      else None
  | task_finish i =>
      match pool s !! i with
      | Some t =>
          if finished t then None
          else Some {| pool := <[i := {| outcome := outcome t; finished := true |}]> (pool s);
                       in_run := in_run s;
                       tasks_ := tasks_ s;
                       joins := joins s |}
      | None => None
      end
  | wait_swap =>
      Some {| pool := pool s;
              in_run := in_run s;
              tasks_ := [];
              joins := joins s ++ [{| active := tasks_ s; returned := false |}] |}
  | wait_return k =>
      match joins s !! k with
      | Some j =>
          if returned j then None
          else if forallb (is_finished s) (active j) then
            Some {| pool := pool s;
                    in_run := in_run s;
                    tasks_ := tasks_ s;
                    joins := <[k := {| active := active j; returned := true |}]> (joins s) |}
          else None
      | None => None
      end
  end.

Fixpoint exec (s : state) (tr : list event) : option state :=
  match tr with
  | [] => Some s
  | ev :: tr =>
      match step s ev with
      | Some s' => exec s' tr
      | None => None
      end
  end.

(** What the [k]-th [wait] propagates when it returns. *)
Definition wait_outcome (s : state) (k : nat) : option Parallel.future :=
  j ← joins s !! k;
  Some (Parallel.wait_catch
          (match active j with
           | [] => None
           | _ :: _ => Parallel.on_ready [] (results s (active j))
           end)).

(** The futures registered on the handle along a trace, in order. *)
Definition pushed (tr : list event) : list nat :=
  omap (fun ev => match ev with run_push i => Some i | _ => None end) tr.

(** The tasks completed along a trace. *)
Definition completed (tr : list event) : list nat :=
  omap (fun ev => match ev with task_finish i => Some i | _ => None end) tr.

(** The futures taken by the swaps of all the waits so far. *)
Definition taken (s : state) : list nat := mjoin (active <$> joins s).

(** A registered task is on the handle, was taken by the swap of some
    [wait], or is finished. *)
Definition accounted (s : state) (i : nat) : Prop :=
  i ∈ tasks_ s \/ i ∈ taken s \/ is_finished s i = true.

(** The tasks of a join that is over are finished. *)
Definition joined_finished (s : state) : Prop :=
  forall j i,
    j ∈ joins s -> returned j = true -> i ∈ active j ->
    is_finished s i = true.

(** Every future somebody holds: the [run] calls in progress, the handle,
    the waits. *)
Definition held (s : state) : list nat :=
  in_run s ++ tasks_ s ++ taken s.

(** Every future somebody holds was returned by [hpx::async]. *)
Definition well_formed (s : state) : Prop :=
  forall i, i ∈ held s -> i < length (pool s).

Definition is_wait_return (ev : event) : bool :=
  match ev with wait_return _ => true | _ => false end.

Definition is_wait_swap (ev : event) : bool :=
  match ev with wait_swap => true | _ => false end.

(** The futures [hpx::async] returned along a trace, in order. *)
Definition spawned (tr : list event) : list Parallel.future :=
  omap (fun ev =>
          match ev with
          | run_async g => Some (Parallel.async g)
          | _ => None
          end) tr.

End Interleaving.

(** ** Senders and [connect] *)

Module BasicExecution.

(** The members a [sender_traits] struct declares; the payload of a
    member names the alias. *)
Record traits_struct : Type := mk_traits {
  value_types : option nat;
  error_types : option nat;
  sends_done : option bool;
  unspecialized_marker : bool            (* declares [__unspecialized] *)
}.

(** What the traits look at in a class type.  A nested member is [Some]
    when the class declares it. *)
Record class_type : Type := mk_class {
  move_constructible : bool;             (* [std::is_move_constructible] of the decayed type *)
  nested_value_types : option nat;       (* [Sender::value_types] *)
  nested_error_types : option nat;       (* [Sender::error_types] *)
  nested_sends_done : option bool;       (* [Sender::sends_done] *)
  direct_traits : option traits_struct   (* a user's own [sender_traits<Sender>], as written *)
}.

Definition has_value_types (S : class_type) : bool :=
  match nested_value_types S with Some _ => true | None => false end.

Definition has_error_types (S : class_type) : bool :=
  match nested_error_types S with Some _ => true | None => false end.

Definition has_sends_done (S : class_type) : bool :=
  match nested_sends_done S with Some _ => true | None => false end.

Definition has_sender_types (S : class_type) : bool :=
  has_value_types S && has_error_types S && has_sends_done S.

Definition sender_traits_base (HasSenderTraits : bool) (S : class_type)
    : traits_struct :=
  if HasSenderTraits then
    {| value_types := nested_value_types S;
       error_types := nested_error_types S;
       sends_done := nested_sends_done S;
       unspecialized_marker := false |}
  else
    {| value_types := None;
       error_types := None;
       sends_done := None;
       unspecialized_marker := true |}.

(** [sender_traits<Sender>] for a class: the user's specialization when
    there is one, the primary template otherwise. *)
Definition sender_traits (S : class_type) : traits_struct :=
  match direct_traits S with
  | Some user => user
  | None => sender_traits_base (has_sender_types S) S
  end.

(** [detail::specialized<Sender>(nullptr)]: the overload taking
    [sender_traits<Sender>::__unspecialized*] is viable exactly when the
    member exists, and then wins over the ellipsis. *)
Definition specialized (S : class_type) : bool :=
  if unspecialized_marker (sender_traits S) then false else true.

Definition is_sender (S : class_type) : bool :=
  move_constructible S && specialized S.

(** Types with their qualifiers, as the traits receive them. *)
Inductive reference : Type :=
  | no_reference
  | lvalue_reference
  | rvalue_reference.

Record cxx_type : Type := mk_type {
  class_of : class_type;
  is_const : bool;
  is_volatile : bool;
  ref : reference
}.

Module Qualified.

(** [sender_traits<T>] for an object type: [sender_traits<Sender const>]
    and [sender_traits<Sender volatile>] inherit from
    [sender_traits<Sender>]; for a const volatile type both match and
    neither is more specialized, so the instantiation is ill-formed
    ([None]). *)
Definition sender_traits_cv (S : class_type) (c v : bool)
    : option traits_struct :=
  match c, v with
  | true, true => None
  | true, false => Some (sender_traits S)
  | false, true => Some (sender_traits S)
  | false, false => Some (sender_traits S)
  end.

(** [sender_traits<T>]: [sender_traits<Sender&>] and
    [sender_traits<Sender&&>] inherit from [sender_traits<Sender>]. *)
Definition sender_traits (T : cxx_type) : option traits_struct :=
  match ref T with
  | lvalue_reference => sender_traits_cv (class_of T) (is_const T) (is_volatile T)
  | rvalue_reference => sender_traits_cv (class_of T) (is_const T) (is_volatile T)
  | no_reference => sender_traits_cv (class_of T) (is_const T) (is_volatile T)
  end.

(** [detail::specialized<T>(nullptr)] *)
Definition specialized (T : cxx_type) : option bool :=
  match sender_traits T with
  | Some traits => Some (if unspecialized_marker traits then false else true)
  | None => None
  end.

(** [is_sender<T>]: [None] when the program is ill-formed. *)
Definition is_sender (T : cxx_type) : option bool :=
  match specialized T with
  | Some b => Some (move_constructible (class_of T) && b)
  | None => None
  end.

End Qualified.

(** The class declares the three members the primary template looks
    for. *)
Definition declares_sender_types (S : class_type) : Prop :=
  is_Some (nested_value_types S)
  /\ is_Some (nested_error_types S)
  /\ is_Some (nested_sends_done S).

(** How an operand reaches [connect]: [T&&], [T&], [T const&]. *)
Inductive passing : Type := by_value | by_mutable_ref | by_const_ref.

Inductive dispatch : Type := customization | sender_method.

Inductive rejection : Type := no_viable_overload | not_an_operation_state.

Section Connect.

(** Declarations of headers that are not part of this development. *)
Variable is_receiver_v : class_type -> bool.
Variable is_operation_state_v : class_type -> bool.

(** What name lookup finds: the result type of
    [tag_invoke(connect, s, r)] and of [s.connect(r)] where the
    expression is well formed. *)
Variable tag_invoke_connect :
  class_type -> passing -> class_type -> passing -> option class_type.
Variable member_connect :
  class_type -> passing -> class_type -> passing -> option class_type.

Definition is_tag_invocable (S : class_type) (ps : passing)
    (R : class_type) (pr : passing) : bool :=
  match tag_invoke_connect S ps R pr with Some _ => true | None => false end.

(** The two [tag_invoke_impl] overloads, selected by the tag. *)
Definition tag_invoke_impl (IsTagInvocable : bool) (S : class_type)
    (ps : passing) (R : class_type) (pr : passing)
    : option (dispatch * class_type) :=
  if IsTagInvocable then
    match tag_invoke_connect S ps R pr with
    | Some t => Some (customization, t)
    | None => None
    end
  else
    match member_connect S ps R pr with
    | Some t => Some (sender_method, t)
    | None => None
    end.

(** [operation_select]: only the [std::true_type] overload exists. *)
Definition operation_select (IsSender : bool) (S : class_type)
    (ps : passing) (R : class_type) (pr : passing)
    : option (dispatch * class_type) :=
  if IsSender then tag_invoke_impl (is_tag_invocable S ps R pr) S ps R pr
  else None.

(** The trailing return type of [connect_t::operator()]: [None] is a
    substitution failure. *)
Definition connect_decltype (S : class_type) (ps : passing)
    (R : class_type) (pr : passing) : option (dispatch * class_type) :=
  operation_select (is_sender S) S ps R pr.

(** [hpx::traits::is_callable<connect_t(S, R)>] *)
Definition is_callable_connect (S : class_type) (ps : passing)
    (R : class_type) (pr : passing) : bool :=
  match connect_decltype S ps R pr with Some _ => true | None => false end.

(** Compiling the call [connect(s, r)]. *)
Definition connect (S : class_type) (ps : passing)
    (R : class_type) (pr : passing) : dispatch * class_type + rejection :=
  match connect_decltype S ps R pr with
  | None => inr no_viable_overload
  | Some (d, t) =>
      if is_operation_state_v t then inl (d, t)
      else inr not_an_operation_state
  end.

Definition is_sender_to_impl (IsSenderReceiver : bool)
    (S R : class_type) : bool :=
  if IsSenderReceiver then
    is_callable_connect S by_value R by_value
    || is_callable_connect S by_value R by_mutable_ref
    || is_callable_connect S by_value R by_const_ref
    || is_callable_connect S by_mutable_ref R by_value
    || is_callable_connect S by_mutable_ref R by_mutable_ref
    || is_callable_connect S by_mutable_ref R by_const_ref
    || is_callable_connect S by_const_ref R by_value
    || is_callable_connect S by_const_ref R by_mutable_ref
    || is_callable_connect S by_const_ref R by_const_ref
  else false.

Definition is_sender_to (S R : class_type) : bool :=
  is_sender_to_impl (is_sender S && is_receiver_v R) S R.

(** The resolution order as the specification words it, to compare with
    [connect_decltype]: the registered customization if there is one,
    otherwise the sender's own method. *)
Definition dispatched (S : class_type) (ps : passing)
    (R : class_type) (pr : passing) : option (dispatch * class_type) :=
  match tag_invoke_connect S ps R pr with
  | Some t => Some (customization, t)
  | None =>
      match member_connect S ps R pr with
      | Some t => Some (sender_method, t)
      | None => None
      end
  end.

End Connect.

End BasicExecution.

(** ** The MPI environment

    [hpx::util::mpi_environment], built with [HPX_HAVE_NETWORKING],
    [HPX_HAVE_PARCELPORT_MPI] and [USE_LCI], without [__bgq__] and
    [MVAPICH2_VERSION].  Diagnostic output ([DEBUG], [printf]) is left
    out. *)

From stdpp Require Import strings.

Module MpiEnvironment.

Inductive MPI_Comm : Type :=
  | MPI_COMM_NULL
  | MPI_COMM_WORLD
  | MPI_Comm_dup (comm : MPI_Comm).

(** The calls into MPI and LCI, as they are issued. *)
Inductive library_call : Type :=
  | call_MPI_Initialized
  | call_LCI_initialize
  | call_MPI_Init_thread (required : Z)
  | call_MPI_Comm_rank (comm : MPI_Comm)
  | call_MPI_Comm_size (comm : MPI_Comm)
  | call_MPI_Bcast
  | call_MPI_Gather
  | call_MPI_Error_string (retval : Z)
  | call_MPI_Comm_dup (comm : MPI_Comm)
  | call_MPI_Get_processor_name
  | call_MPI_Finalized
  | call_LCI_finalize
  | call_MPI_Finalize.

(** What the library answers. *)
Record mpi_library : Type := mk_library {
  MPI_Initialized : Z * bool;          (* return value, [is_initialized != 0] *)
  MPI_Init_thread : Z -> Z * Z;        (* [required] to return value, [provided] *)
  MPI_Comm_rank : MPI_Comm -> Z;       (* the rank written to [res] *)
  MPI_Comm_size : MPI_Comm -> Z;       (* the size written to [res] *)
  MPI_Get_processor_name : string;
  MPI_Finalized : bool                 (* [is_finalized != 0] *)
}.

(** The static members, and the calls issued so far, oldest first. *)
Record mpi_environment : Type := mk_environment {
  enabled_ : bool;
  has_called_init_ : bool;
  provided_threading_flag_ : Z;
  communicator_ : MPI_Comm;
  calls : list library_call
}.

Inductive exception : Type :=
  | invalid_status                     (* [HPX_THROW_EXCEPTION(invalid_status, ...)] *)
  | init_thread_failed (retval : Z)    (* [std::runtime_error]: MPI_Init_thread failed *)
  | funneled_not_supported.            (* [std::runtime_error]: only MPI_THREAD_FUNNELED *)

Inductive runtime_mode : Type := console | worker.

Inductive mutex_operation : Type :=
  | mtx_lock
  | mtx_try_lock (acquired : bool)
  | mtx_unlock.

Record scoped_try_lock : Type := mk_try_lock { locked : bool }.

Definition set_enabled (b : bool) (env : mpi_environment) : mpi_environment :=
  mk_environment b (has_called_init_ env) (provided_threading_flag_ env)
    (communicator_ env) (calls env).

Definition set_has_called_init (b : bool) (env : mpi_environment)
    : mpi_environment :=
  mk_environment (enabled_ env) b (provided_threading_flag_ env)
    (communicator_ env) (calls env).

Definition set_provided (z : Z) (env : mpi_environment) : mpi_environment :=
  mk_environment (enabled_ env) (has_called_init_ env) z
    (communicator_ env) (calls env).

Definition set_communicator (c : MPI_Comm) (env : mpi_environment)
    : mpi_environment :=
  mk_environment (enabled_ env) (has_called_init_ env)
    (provided_threading_flag_ env) c (calls env).

Definition issue (cs : list library_call) (env : mpi_environment)
    : mpi_environment :=
  mk_environment (enabled_ env) (has_called_init_ env)
    (provided_threading_flag_ env) (communicator_ env) (calls env ++ cs).

(** The calls that start or shut down the communication libraries. *)
Definition starts_or_stops (c : library_call) : bool :=
  match c with
  | call_LCI_initialize | call_MPI_Init_thread _
  | call_LCI_finalize | call_MPI_Finalize => true
  | _ => false
  end.

Section WithLibrary.

(** Constants of [mpi.h]. *)
Variable MPI_SUCCESS : Z.
Variable MPI_ERR_OTHER : Z.
Variable MPI_THREAD_SINGLE : Z.
Variable MPI_THREAD_FUNNELED : Z.
Variable MPI_THREAD_SERIALIZED : Z.
Variable MPI_THREAD_MULTIPLE : Z.

(** [util::runtime_configuration] and the functions used on it. *)
Variable runtime_configuration : Type.
Variable add_entry :
  runtime_configuration -> string -> string -> runtime_configuration.
Variable get_entry : runtime_configuration -> string -> string -> string.
Variable get_entry_as : runtime_configuration -> string -> Z -> Z.
Variable set_mode_ : runtime_configuration -> runtime_mode -> runtime_configuration.

(** [boost::tokenizer] with [char_separator], [std::getenv],
    [std::to_string] and the build configuration. *)
Variable tokenizer : string -> string -> list string.
Variable getenv : string -> option string.
Variable to_string : Z -> string.
Variable HPX_HAVE_PARCELPORT_MPI_ENV : string.
Variable HPX_HAVE_PARCELPORT_MPI_MULTITHREADED : bool.

Variable mpi : mpi_library.

(** [detail::detect_mpi_environment] *)
Definition detect_mpi_environment (cfg : runtime_configuration)
    (default_env : string) : bool :=
  let mpi_environment_strings := get_entry cfg "hpx.parcel.mpi.env" default_env in
  let tokens := tokenizer mpi_environment_strings ";,: " in
  existsb (fun it => match getenv it with Some _ => true | None => false end)
    tokens.

(** [mpi_environment::check_mpi_environment] *)
Definition check_mpi_environment (cfg : runtime_configuration) : bool :=
  if (get_entry_as cfg "hpx.parcel.mpi.enable" 1 =? 0)%Z
     || negb (detect_mpi_environment cfg HPX_HAVE_PARCELPORT_MPI_ENV)
     || (negb (get_entry_as cfg "hpx.parcel.tcp.enable" 1 =? 0)%Z
         && (get_entry_as cfg "hpx.parcel.mpi.priority" 0
             <? get_entry_as cfg "hpx.parcel.tcp.priority" 1)%Z)
  then false
  else true.

(** The initial values of the static members. *)
Definition initial : mpi_environment :=
  {| enabled_ := false;
     has_called_init_ := false;
     provided_threading_flag_ := MPI_THREAD_SINGLE;
     communicator_ := MPI_COMM_NULL;
     calls := [] |}.

(** [mpi_environment::init(argc, argv, required, minimal, provided)];
    the third component is the value of the caller's [provided]
    afterwards. *)
Definition init_thread (required minimal provided : Z)
    (env : mpi_environment) : mpi_environment * Z * (Z + exception) :=
  let env := set_has_called_init false env in
  let env := issue [call_MPI_Initialized] env in
  let '(retval, is_initialized) := MPI_Initialized mpi in
  if negb (MPI_SUCCESS =? retval)%Z then (env, provided, inl retval)
  else if negb is_initialized then
    let env := issue [call_LCI_initialize] env in
    let env := issue [call_MPI_Init_thread required] env in
    let '(retval, provided) := MPI_Init_thread mpi required in
    let env := issue [call_MPI_Comm_rank MPI_COMM_WORLD;
                      call_MPI_Comm_size MPI_COMM_WORLD;
                      call_MPI_Bcast; call_MPI_Gather] env in
    if negb (MPI_SUCCESS =? retval)%Z then (env, provided, inl retval)
    else if (provided <? minimal)%Z then (env, provided, inr invalid_status)
    else (set_has_called_init true env, provided, inl retval)
  else (env, provided, inl retval).

(** [mpi_environment::enabled] *)
Definition enabled (env : mpi_environment) : bool := enabled_ env.

(** [mpi_environment::multi_threaded] *)
Definition multi_threaded (env : mpi_environment) : bool :=
  (MPI_THREAD_SERIALIZED <=? provided_threading_flag_ env)%Z.

(** [mpi_environment::has_called_init] *)
Definition has_called_init (env : mpi_environment) : bool :=
  has_called_init_ env.

(** [mpi_environment::communicator] *)
Definition communicator (env : mpi_environment) : MPI_Comm := communicator_ env.

(** [mpi_environment::size] *)
Definition size (env : mpi_environment) : mpi_environment * Z :=
  if enabled env then
    (issue [call_MPI_Comm_size (communicator env)] env,
     MPI_Comm_size mpi (communicator env))
  else (env, (-1)%Z).

(** [mpi_environment::rank] *)
Definition rank (env : mpi_environment) : mpi_environment * Z :=
  if enabled env then
    (issue [call_MPI_Comm_rank (communicator env)] env,
     MPI_Comm_rank mpi (communicator env))
  else (env, (-1)%Z).

(** [mpi_environment::get_processor_name] *)
Definition get_processor_name (env : mpi_environment)
    : mpi_environment * string :=
  (issue [call_MPI_Get_processor_name] env, MPI_Get_processor_name mpi).

(** [mpi_environment::init(argc, argv, rtcfg)]: the static members and
    the configuration afterwards, and the exception thrown, if any.  The
    inner [init] receives [provided_threading_flag_] as its [provided]. *)
Definition init (env : mpi_environment) (rtcfg : runtime_configuration)
    : mpi_environment * runtime_configuration * option exception :=
  if enabled_ env then (env, rtcfg, None)
  else
    let env := set_has_called_init false env in
    let env := set_enabled (check_mpi_environment rtcfg) env in
    if negb (enabled_ env) then
      (env, add_entry rtcfg "hpx.parcel.mpi.enable" "0", None)
    else
      let rtcfg := add_entry rtcfg "hpx.parcel.bootstrap" "mpi" in
      let required :=
        if HPX_HAVE_PARCELPORT_MPI_MULTITHREADED then
          if negb (get_entry_as rtcfg "hpx.parcel.mpi.multithreaded" 1 =? 0)%Z
          then MPI_THREAD_MULTIPLE
          else MPI_THREAD_SINGLE
        else MPI_THREAD_SINGLE in
      let minimal := MPI_THREAD_SINGLE in
      match init_thread required minimal (provided_threading_flag_ env) env with
      | (env, provided, inr e) => (set_provided provided env, rtcfg, Some e)
      | (env, provided, inl retval) =>
          let env := set_provided provided env in
          if negb (MPI_SUCCESS =? retval)%Z && negb (MPI_ERR_OTHER =? retval)%Z
          then
            let rtcfg := add_entry rtcfg "hpx.parcel.mpi.enable" "0" in
            let env := set_enabled false env in
            let env := issue [call_MPI_Error_string retval] env in
            (env, rtcfg, Some (init_thread_failed retval))
          else
            let env := issue [call_MPI_Comm_dup MPI_COMM_WORLD] env in
            let env := set_communicator (MPI_Comm_dup MPI_COMM_WORLD) env in
            let rtcfg :=
              if (provided_threading_flag_ env <? MPI_THREAD_SERIALIZED)%Z
              then add_entry rtcfg "hpx.parcel.mpi.multithreaded" "0"
              else rtcfg in
            if (provided_threading_flag_ env =? MPI_THREAD_FUNNELED)%Z then
              let env := set_enabled false env in
              let env := set_has_called_init false env in
              (env, rtcfg, Some funneled_not_supported)
            else
              let '(env, this_rank) := rank env in
              let rtcfg :=
                if (this_rank =? 0)%Z then set_mode_ rtcfg console
                else set_mode_ rtcfg worker in
              let rtcfg :=
                add_entry rtcfg "hpx.parcel.mpi.rank" (to_string this_rank) in
              let '(env, name) := get_processor_name env in
              let rtcfg :=
                add_entry rtcfg "hpx.parcel.mpi.processorname" name in
              (env, rtcfg, None)
      end.

(** [mpi_environment::finalize] *)
Definition finalize (env : mpi_environment) : mpi_environment :=
  if enabled env && has_called_init env then
    let env := issue [call_MPI_Finalized] env in
    if negb (MPI_Finalized mpi) then
      issue [call_LCI_finalize; call_MPI_Finalize] env
    else env
  else env.

(** [scoped_lock::scoped_lock], [scoped_lock::~scoped_lock] and
    [scoped_lock::unlock]: the operations performed on [mtx_]. *)
Definition scoped_lock_ctor (env : mpi_environment) : list mutex_operation :=
  if negb (multi_threaded env) then [mtx_lock] else [].

Definition scoped_lock_dtor (env : mpi_environment) : list mutex_operation :=
  if negb (multi_threaded env) then [mtx_unlock] else [].

Definition scoped_lock_unlock (env : mpi_environment) : list mutex_operation :=
  if negb (multi_threaded env) then [mtx_unlock] else [].

(** [scoped_try_lock::scoped_try_lock]; [try_lock] is what
    [mtx_.try_lock()] returns if it is called. *)
Definition scoped_try_lock_ctor (env : mpi_environment) (try_lock : bool)
    : scoped_try_lock * list mutex_operation :=
  if negb (multi_threaded env) then
    ({| locked := try_lock |}, [mtx_try_lock try_lock])
  else ({| locked := true |}, []).

(** [scoped_try_lock::~scoped_try_lock] *)
Definition scoped_try_lock_dtor (env : mpi_environment) (l : scoped_try_lock)
    : list mutex_operation :=
  if negb (multi_threaded env) && locked l then [mtx_unlock] else [].

(** [scoped_try_lock::unlock] *)
Definition scoped_try_lock_unlock (env : mpi_environment) (l : scoped_try_lock)
    : scoped_try_lock * list mutex_operation :=
  if negb (multi_threaded env) && locked l then
    ({| locked := false |}, [mtx_unlock])
  else (l, []).

(** A [scoped_lock] on which [unlock] is called [n] times before it is
    destroyed. *)
Definition scoped_lock_lifetime (env : mpi_environment) (n : nat)
    : list mutex_operation :=
  scoped_lock_ctor env
  ++ concat (replicate n (scoped_lock_unlock env))
  ++ scoped_lock_dtor env.

Fixpoint scoped_try_lock_unlocks (env : mpi_environment) (n : nat)
    (l : scoped_try_lock) : scoped_try_lock * list mutex_operation :=
  match n with
  | 0 => (l, [])
  | S n =>
      let '(l, ops) := scoped_try_lock_unlock env l in
      let '(l, ops') := scoped_try_lock_unlocks env n l in
      (l, ops ++ ops')
  end.

(** A [scoped_try_lock] on which [unlock] is called [n] times before it
    is destroyed. *)
Definition scoped_try_lock_lifetime (env : mpi_environment) (try_lock : bool)
    (n : nat) : list mutex_operation :=
  let '(l, ops) := scoped_try_lock_ctor env try_lock in
  let '(l, ops') := scoped_try_lock_unlocks env n l in
  ops ++ ops' ++ scoped_try_lock_dtor env l.

End WithLibrary.

End MpiEnvironment.

(** * Properties of the task region *)

Module ParallelFacts.
Import Parallel.
Local Open Scope region_scope.

Lemma fold_left_add (el errors : exception_list) :
  fold_left add el errors = errors ++ el.
Proof.
  revert errors. induction el as [|e el IH]; intros errors; simpl.
  - by rewrite app_nil_r.
  - rewrite IH. unfold add. by rewrite <- app_assoc.
Qed.

Lemma fold_left_collect (results : list future) (errors : exception_list) :
  fold_left collect results errors = errors ++ failures results.
Proof.
  revert errors. induction results as [|f results IH]; intros errors; simpl.
  - by rewrite app_nil_r.
  - rewrite IH. destruct f as [e|]; simpl; [|done].
    unfold add. by rewrite <- app_assoc.
Qed.

Lemma count_composite (errors : exception_list) :
  match get_error_count errors with
  | 0 => None
  | S _ => Some (thrown_list errors)
  end = composite errors.
Proof. by destruct errors. Qed.

Lemma on_ready_composite errors results :
  on_ready errors results = composite (errors ++ failures results).
Proof. unfold on_ready. by rewrite fold_left_collect, count_composite. Qed.

Lemma wait_catch_composite errors :
  wait_catch (composite errors) = composite errors.
Proof. by destruct errors. Qed.

Lemma catch_into_causes errors r :
  catch_into errors r = errors ++ body_causes r.
Proof.
  destruct r as [e|]; simpl; [|by rewrite app_nil_r].
  destruct e; simpl; try done. apply fold_left_add.
Qed.

Lemma body_causes_composite errors : body_causes (composite errors) = errors.
Proof. by destruct errors. Qed.

Lemma when_spec errors trh :
  when errors trh =
    (new_handle,
     match tasks_ trh with
     | [] => None
     | _ :: _ => composite (errors ++ failures (tasks_ trh))
     end).
Proof.
  unfold when. destruct (tasks_ trh) as [|f fs] eqn:E; [done|].
  by rewrite on_ready_composite.
Qed.

Lemma wait_spec trh :
  wait trh = (new_handle, composite (failures (tasks_ trh))).
Proof.
  unfold wait. rewrite when_spec.
  destruct (tasks_ trh) as [|f fs]; [done|].
  by rewrite wait_catch_composite.
Qed.

Lemma destroy_after_join : destroy new_handle = new_handle.
Proof. done. Qed.

Lemma run_all_spec gs trh :
  run_all gs trh = ({| tasks_ := tasks_ trh ++ gs |}, None).
Proof.
  revert trh. induction gs as [|g gs IH]; intros [ts]; simpl.
  - by rewrite app_nil_r.
  - unfold seq, run at 1. simpl. rewrite IH. simpl. by rewrite <- app_assoc.
Qed.

Lemma task_region_spec f trh r :
  f new_handle = (trh, r) ->
  task_region f = composite (body_causes r ++ failures (tasks_ trh)).
Proof.
  intros Hf. unfold task_region. rewrite Hf, wait_spec.
  rewrite !catch_into_causes, body_causes_composite. simpl.
  apply count_composite.
Qed.

Lemma task_region_async_spec f trh r :
  f new_handle = (trh, r) ->
  task_region_async f =
    match tasks_ trh with
    | [] => None
    | _ :: _ => composite (body_causes r ++ failures (tasks_ trh))
    end.
Proof.
  intros Hf. unfold task_region_async. rewrite Hf, when_spec.
  by rewrite catch_into_causes.
Qed.

(** A body that only spawns: every spawned task is pending at its end. *)
Lemma task_region_run_all gs :
  task_region (run_all gs) = composite (failures gs).
Proof.
  rewrite (task_region_spec _ {| tasks_ := gs |} None); [done|].
  by rewrite run_all_spec.
Qed.

Lemma task_region_run_all_throw gs e :
  flat e ->
  task_region (run_all gs ;; throw e)
  = Some (thrown_list (e :: failures gs)).
Proof.
  intros He.
  rewrite (task_region_spec _ {| tasks_ := gs |} (Some e)).
  - by destruct e.
  - unfold seq. by rewrite run_all_spec.
Qed.

(** An error that [wait] reports to the body and the body handles is not
    reported again by the entry point. *)
Lemma task_region_handled_wait e :
  task_region (run (Some e) ;; try_catch_all wait) = None.
Proof. done. Qed.

Lemma cause_count_composite errors :
  cause_count (composite errors) = length errors.
Proof. by destruct errors. Qed.

Lemma composite_None errors : composite errors = None <-> errors = [].
Proof. by destruct errors. Qed.



(** C5 (amended): [run] and [wait] never raise [task_canceled_exception],
    also on a handle whose pending tasks have already failed: [run]
    registers the task and returns normally, and [wait] reports the
    failures of the pending tasks as an [exception_list]. *)
Theorem run_wait_never_task_canceled (g : task) (trh : task_region_handle) :
  run g trh = ({| tasks_ := tasks_ trh ++ [async g] |}, None)
  /\ snd (wait trh) = composite (failures (tasks_ trh))
  /\ snd (wait trh) <> Some task_canceled_exception.
Proof.
  split; [done|]. rewrite wait_spec. simpl. split; [done|].
  by destruct (failures (tasks_ trh)).
Qed.

(** C5 as stated fails: on a handle whose only pending task has failed,
    [run] returns normally and [wait] raises the list of that failure;
    neither raises [task_canceled_exception]. *)
Lemma task_canceled_counterexample :
  let trh := {| tasks_ := [Some (user_exception 1)] |} in
  failures (tasks_ trh) = [user_exception 1]
  /\ snd (run None trh) = None
  /\ snd (run None trh) <> Some task_canceled_exception
  /\ snd (wait trh) = Some (thrown_list [user_exception 1])
  /\ snd (wait trh) <> Some task_canceled_exception.
Proof. repeat split; done. Qed.

(** C3 (the code at the failing input): a body that raises and leaves no
    pending task gives, through the future-returning entry point, a future
    that holds no error, whereas the blocking entry point surfaces it. *)
Theorem task_region_async_drops_body_error (n : nat) :
  task_region_async (throw (user_exception n)) = None
  /\ task_region (throw (user_exception n))
     = Some (thrown_list [user_exception n])
  /\ task_region_async (run (Some (user_exception n)) ;; wait) = None.
Proof. done. Qed.

(** C2 (amended): for the blocking entry points the composite error holds
    the body's contribution (one cause for an error that is not an
    aggregator, the contained errors for an aggregator, nothing when the
    body returned) followed by one cause per failed task among those still
    pending when the body finished; with nothing to report the entry point
    returns normally. *)
Theorem task_region_composite_causes
    (f : region_body) (trh : task_region_handle) (r : option exception_ptr) :
  f new_handle = (trh, r) ->
  task_region f = composite (body_causes r ++ failures (tasks_ trh))
  /\ task_region_final f = task_region f
  /\ cause_count (task_region f)
     = length (failures (tasks_ trh)) + length (body_causes r)
  /\ (task_region f = None <->
      failures (tasks_ trh) = [] /\ body_causes r = []).
Proof.
  intros Hf. pose proof (task_region_spec f trh r Hf) as Hspec.
  repeat split; try done.
  - rewrite Hspec, cause_count_composite, length_app. lia.
  - rewrite Hspec in H. apply composite_None, app_eq_nil in H. tauto.
  - rewrite Hspec in H. apply composite_None, app_eq_nil in H. tauto.
  - intros [H1 H2]. rewrite Hspec, H1, H2. done.
Qed.

Lemma task_region_composite_causes_witness :
  let gs := [None; Some (user_exception 1); None; Some (user_exception 2); None] in
  let f := (run_all gs ;; throw (user_exception 9)) in
  f new_handle = ({| tasks_ := gs |}, Some (user_exception 9))
  /\ cause_count (task_region f) = 2 + 1.
Proof.
  split; [reflexivity|].
  exact (proj1 (proj2 (proj2 (task_region_composite_causes _
           {| tasks_ := [None; Some (user_exception 1); None;
                         Some (user_exception 2); None] |}
           (Some (user_exception 9)) eq_refl)))).
Defined.

(** C2 as stated fails: one task raises, [wait] reports it inside the
    body and the error escapes the body; the composite error then has one
    cause, not two.  A body that raises an aggregator of two errors with
    no task at all surfaces two causes, not one. *)
Lemma task_region_cause_count_counterexample :
  let g : task := Some (user_exception 7) in
  let f := (run g ;; wait) in
  length (failures [async g]) = 1
  /\ is_Some (snd (f new_handle))
  /\ task_region f = Some (thrown_list [user_exception 7])
  /\ cause_count (task_region f) <> 1 + 1
  /\ cause_count
       (task_region (throw (thrown_list [user_exception 1; user_exception 2])))
     <> 0 + 1.
Proof. repeat split; done. Qed.

(** C6 (amended): flattening is one level deep and happens only in
    [handle_task_region_exceptions]: there a caught aggregator has its
    contained errors appended individually and any other object is
    appended as one error; the continuation of [when] appends the error of
    each failed completion as one error, aggregator or not.  The causes of
    the composite error of [task_region] are therefore all non-aggregators
    exactly when the body's contribution and the errors of the pending
    tasks are. *)
Theorem aggregation_flattens_one_level
    (f : region_body) (trh : task_region_handle) (r : option exception_ptr)
    (el : list exception_ptr) :
  f new_handle = (trh, r) ->
  task_region f = Some (thrown_list el) ->
  (forall errors l, handle_task_region_exceptions errors (thrown_list l) = errors ++ l)
  /\ (forall errors e, flat e -> handle_task_region_exceptions errors e = errors ++ [e])
  /\ (forall errors results,
       fold_left collect results errors = errors ++ failures results)
  /\ el = body_causes r ++ failures (tasks_ trh)
  /\ (Forall flat el <->
      Forall flat (body_causes r) /\ Forall flat (failures (tasks_ trh))).
Proof.
  intros Hf Hel. rewrite (task_region_spec f trh r Hf) in Hel.
  assert (el = body_causes r ++ failures (tasks_ trh)) as ->.
  { destruct (body_causes r ++ failures (tasks_ trh)); simpl in Hel; by simplify_eq. }
  split; [intros errors l; apply fold_left_add|].
  split; [intros errors e He; by destruct e|].
  split; [intros errors results; apply fold_left_collect|].
  split; [done|]. apply Forall_app.
Qed.

Lemma aggregation_flattens_one_level_witness :
  let f := (run_all [Some (user_exception 1); None] ;;
            throw (thrown_list [user_exception 2])) in
  Forall flat [user_exception 2; user_exception 1]
  <-> Forall flat (body_causes (Some (thrown_list [user_exception 2])))
      /\ Forall flat (failures [Some (user_exception 1); None]).
Proof.
  exact (proj2 (proj2 (proj2 (proj2 (aggregation_flattens_one_level
           (run_all [Some (user_exception 1); None] ;;
            throw (thrown_list [user_exception 2]))
           {| tasks_ := [Some (user_exception 1); None] |}
           (Some (thrown_list [user_exception 2]))
           [user_exception 2; user_exception 1] eq_refl eq_refl))))).
Defined.

(** C6 as stated fails: a task that runs a nested region which fails holds
    an aggregator; the join of the outer region appends it as one error,
    and the composite error of the outer region has an aggregator among
    its causes. *)
Lemma nested_aggregator_counterexample :
  let inner := task_region (run (Some (user_exception 1)) ;;
                            run (Some (user_exception 2))) in
  inner = Some (thrown_list [user_exception 1; user_exception 2])
  /\ on_ready [] [async inner]
     = Some (thrown_list [thrown_list [user_exception 1; user_exception 2]])
  /\ task_region (run inner)
     = Some (thrown_list [thrown_list [user_exception 1; user_exception 2]])
  /\ ~ Forall flat [thrown_list [user_exception 1; user_exception 2]].
Proof.
  repeat split; try done.
  intros H. by apply Forall_cons_1 in H as [? _].
Qed.

End ParallelFacts.

(** * Properties of the join under interleaving *)

Module InterleavingFacts.
Import Interleaving.

Lemma exec_app s tr1 tr2 :
  exec s (tr1 ++ tr2) =
    match exec s tr1 with
    | Some s' => exec s' tr2
    | None => None
    end.
Proof.
  revert s. induction tr1 as [|ev tr1 IH]; intros s; simpl; [done|].
  destruct (step s ev); [apply IH|done].
Qed.

(** A task is finished after a step exactly when it was before, or the
    step is its completion. *)
Lemma step_finished s ev s' i :
  step s ev = Some s' ->
  is_finished s' i = true <-> is_finished s i = true \/ ev = task_finish i.
Proof.
  unfold is_finished. destruct ev as [g|j|j| |k]; simpl; intros Hstep.
  - simplify_eq. simpl.
    destruct (decide (i < length (pool s))) as [Hlt|Hge].
    + rewrite lookup_app_l by done. intuition congruence.
    + rewrite (lookup_ge_None_2 (pool s)) by lia.
      rewrite lookup_app_r by lia.
      destruct (i - length (pool s)) as [|n]; simpl; [intuition congruence|].
      intuition congruence.
  - case_bool_decide; simplify_eq. simpl. intuition congruence.
  - destruct (pool s !! j) as [t|] eqn:Hj; [|done].
    destruct (finished t) eqn:Hfin; simplify_eq. simpl.
    destruct (decide (i = j)) as [->|Hne].
    + rewrite list_lookup_insert_eq by (by eapply lookup_lt_Some).
      simpl. intuition congruence.
    + rewrite list_lookup_insert_ne by done. intuition congruence.
  - simplify_eq. simpl. intuition congruence.
  - destruct (joins s !! k) as [j|]; [|done].
    destruct (returned j); [done|].
    destruct (forallb _ (active j)); simplify_eq. simpl. intuition congruence.
Qed.

Lemma completed_cons ev tr i :
  i ∈ completed (ev :: tr) <-> ev = task_finish i \/ i ∈ completed tr.
Proof.
  unfold completed. destruct ev; simpl; rewrite ?elem_of_cons;
    intuition congruence.
Qed.

Lemma exec_finished s tr s' i :
  exec s tr = Some s' ->
  is_finished s' i = true <-> is_finished s i = true \/ i ∈ completed tr.
Proof.
  revert s. induction tr as [|ev tr IH]; intros s; cbn [exec].
  - intros [= ->]. unfold completed. simpl. rewrite elem_of_nil. tauto.
  - destruct (step s ev) as [s1|] eqn:Hstep; [|done]. intros Hexec.
    rewrite (IH _ Hexec), (step_finished _ _ _ _ Hstep), completed_cons.
    tauto.
Qed.

Lemma forallb_finished s l i :
  forallb (is_finished s) l = true -> i ∈ l -> is_finished s i = true.
Proof.
  intros Hall Hi. rewrite forallb_forall in Hall.
  apply Hall. by apply list_elem_of_In.
Qed.

Lemma elem_of_taken s i :
  i ∈ taken s <-> exists j, j ∈ joins s /\ i ∈ active j.
Proof.
  unfold taken. rewrite list_elem_of_join. split.
  - intros (l & Hi & (j & -> & Hj)%list_elem_of_fmap). eauto.
  - intros (j & Hj & Hi). exists (active j). split; [done|].
    by apply list_elem_of_fmap_2.
Qed.

(** What a step does to the vectors swapped out so far. *)
Lemma step_taken s ev s' :
  step s ev = Some s' ->
  taken s' = if is_wait_swap ev then taken s ++ tasks_ s else taken s.
Proof.
  unfold taken. destruct ev as [g|j|j| |k]; simpl; intros Hstep.
  - by simplify_eq.
  - case_bool_decide; by simplify_eq.
  - destruct (pool s !! j) as [t|]; [|done].
    destruct (finished t); by simplify_eq.
  - simplify_eq. simpl. rewrite fmap_app, join_app. simpl.
    by rewrite app_nil_r.
  - destruct (joins s !! k) as [j|] eqn:Hk; [|done].
    destruct (returned j); [done|].
    destruct (forallb _ (active j)); simplify_eq. simpl.
    rewrite list_fmap_insert. simpl. f_equal.
    apply list_insert_id. by rewrite list_lookup_fmap, Hk.
Qed.

Lemma step_accounted s ev s' i :
  step s ev = Some s' -> accounted s i -> accounted s' i.
Proof.
  intros Hstep. pose proof (step_taken _ _ _ Hstep) as Ht.
  unfold accounted. rewrite Ht.
  intros [Hin|[Hin|Hfin]].
  - destruct ev as [g|j|j| |k]; simpl in Hstep |- *.
    + simplify_eq. by left.
    + case_bool_decide; simplify_eq. left. simpl. apply elem_of_app. by left.
    + destruct (pool s !! j) as [t|]; [|done].
      destruct (finished t); simplify_eq. by left.
    + right. left. apply elem_of_app. by right.
    + destruct (joins s !! k) as [j|]; [|done].
      destruct (returned j); [done|].
      destruct (forallb _ (active j)); simplify_eq. by left.
  - right. left. destruct (is_wait_swap ev); [|done].
    apply elem_of_app. by left.
  - right. right. apply (step_finished _ _ _ _ Hstep). by left.
Qed.

Lemma step_push_accounted s i s' :
  step s (run_push i) = Some s' -> accounted s' i.
Proof.
  simpl. case_bool_decide; intros; simplify_eq. left. simpl.
  apply elem_of_app. right. apply list_elem_of_here.
Qed.

Lemma pushed_cons ev tr i :
  i ∈ pushed (ev :: tr) <-> ev = run_push i \/ i ∈ pushed tr.
Proof.
  unfold pushed. destruct ev; simpl; rewrite ?elem_of_cons;
    intuition congruence.
Qed.

Lemma exec_accounted s tr s' i :
  exec s tr = Some s' ->
  accounted s i \/ i ∈ pushed tr -> accounted s' i.
Proof.
  revert s. induction tr as [|ev tr IH]; intros s; cbn [exec].
  - intros [= ->] [H|H]; [done|]. unfold pushed in H. simpl in H.
    by apply elem_of_nil in H.
  - destruct (step s ev) as [s1|] eqn:Hstep; [|done]. intros Hexec Hi.
    apply (IH _ Hexec). rewrite pushed_cons in Hi.
    destruct Hi as [Hacc|[->|Hin]].
    + left. by eapply step_accounted.
    + left. by eapply step_push_accounted.
    + by right.
Qed.

Lemma step_joined_finished s ev s' :
  step s ev = Some s' -> joined_finished s -> joined_finished s'.
Proof.
  intros Hstep Hinv j i Hj Hr Hi.
  assert (j ∈ joins s -> is_finished s' i = true) as Hold.
  { intros Hjs. apply (step_finished _ _ _ _ Hstep). left. by eapply Hinv. }
  destruct ev as [g|n|n| |k]; simpl in Hstep.
  - simplify_eq. by apply Hold.
  - case_bool_decide; simplify_eq. by apply Hold.
  - destruct (pool s !! n) as [t|]; [|done].
    destruct (finished t); simplify_eq. by apply Hold.
  - simplify_eq. simpl in Hj.
    apply elem_of_app in Hj as [Hj|Hj]; [by apply Hold|].
    apply list_elem_of_singleton in Hj as ->. done.
  - destruct (joins s !! k) as [jk|] eqn:Hk; [|done].
    destruct (returned jk) eqn:Hrk; [done|].
    destruct (forallb _ (active jk)) eqn:Hall; simplify_eq. simpl in Hj.
    apply list_elem_of_lookup in Hj as [n Hn].
    apply list_lookup_insert_Some in Hn
      as [(-> & <- & _)|[Hne Hn]].
    + simpl in Hi. unfold is_finished. simpl.
      by apply (forallb_finished s (active jk)).
    + apply Hold. by eapply list_elem_of_lookup_2.
Qed.

Lemma exec_joined_finished s tr s' :
  exec s tr = Some s' -> joined_finished s -> joined_finished s'.
Proof.
  revert s. induction tr as [|ev tr IH]; intros s; cbn [exec].
  - by intros [= ->].
  - destruct (step s ev) as [s1|] eqn:Hstep; [|done].
    intros Hexec Hinv. apply (IH _ Hexec). by eapply step_joined_finished.
Qed.

Lemma step_pool_length s ev s' :
  step s ev = Some s' -> length (pool s) <= length (pool s').
Proof.
  destruct ev as [g|j|j| |k]; simpl; intros Hstep.
  - simplify_eq. simpl. rewrite length_app. lia.
  - case_bool_decide; by simplify_eq.
  - destruct (pool s !! j) as [t|]; [|done].
    destruct (finished t); simplify_eq. simpl. by rewrite length_insert.
  - by simplify_eq.
  - destruct (joins s !! k) as [j|]; [|done].
    destruct (returned j); [done|].
    destruct (forallb _ (active j)); by simplify_eq.
Qed.

(** Only [hpx::async] makes a future somebody holds. *)
Lemma step_held s ev s' i :
  step s ev = Some s' -> i ∈ held s' ->
  i ∈ held s \/ i < length (pool s').
Proof.
  intros Hstep. pose proof (step_taken _ _ _ Hstep) as Ht.
  unfold held. rewrite Ht, !elem_of_app.
  destruct ev as [g|j|j| |k]; simpl in Hstep |- *.
  - simplify_eq. simpl. rewrite elem_of_app, list_elem_of_singleton, length_app.
    simpl. intros [[?| ->]|?]; [tauto|right; lia|tauto].
  - case_bool_decide as Hj; simplify_eq. simpl.
    rewrite elem_of_app, list_elem_of_singleton, list_elem_of_filter.
    intros [[_ ?]|[[?| ->]|?]]; tauto.
  - destruct (pool s !! j) as [t|]; [|done].
    destruct (finished t); simplify_eq. simpl. tauto.
  - simplify_eq. simpl. rewrite elem_of_app, elem_of_nil. tauto.
  - destruct (joins s !! k) as [j|]; [|done].
    destruct (returned j); [done|].
    destruct (forallb _ (active j)); simplify_eq. simpl. tauto.
Qed.

Lemma step_well_formed s ev s' :
  step s ev = Some s' -> well_formed s -> well_formed s'.
Proof.
  intros Hstep Hwf i Hi.
  pose proof (step_pool_length _ _ _ Hstep) as Hlen.
  destruct (step_held _ _ _ _ Hstep Hi) as [Hold|Hnew]; [|done].
  specialize (Hwf i Hold). lia.
Qed.

Lemma step_held_nodup s ev s' :
  step s ev = Some s' -> well_formed s -> NoDup (held s) -> NoDup (held s').
Proof.
  intros Hstep Hwf. pose proof (step_taken _ _ _ Hstep) as Ht.
  unfold held. rewrite Ht.
  destruct ev as [g|j|j| |k]; simpl in Hstep |- *.
  - simplify_eq. simpl. rewrite <- app_assoc. rewrite !NoDup_app.
    intros (Hr & Hrt & Hts & Hta & Ha).
    assert (forall x, x ∈ [length (pool s)] -> x ∉ tasks_ s ++ taken s)
      as Hnew.
    { intros x ->%list_elem_of_singleton Hin.
      assert (length (pool s) < length (pool s)); [|lia].
      apply Hwf. unfold held. rewrite elem_of_app. by right. }
    repeat split; try done; [|apply NoDup_singleton].
    intros x Hx [Hin|Hin]%elem_of_app; [|by apply (Hrt x), Hin].
    apply list_elem_of_singleton in Hin as ->.
    assert (length (pool s) < length (pool s)); [|lia].
    apply Hwf. unfold held. rewrite elem_of_app. by left.
  - case_bool_decide as Hj; simplify_eq. simpl.
    rewrite <- (app_assoc (tasks_ s)). rewrite !NoDup_app.
    intros (Hr & Hrt & Hts & Hta & Ha).
    repeat split; try done.
    + by apply NoDup_filter.
    + intros x [Hne Hx]%list_elem_of_filter.
      rewrite !elem_of_app, list_elem_of_singleton.
      intros [Hin|[Hin|Hin]]; [|done|].
      * apply (Hrt x Hx). apply elem_of_app. by left.
      * apply (Hrt x Hx). apply elem_of_app. by right.
    + intros x Hx [->%list_elem_of_singleton|Hin]%elem_of_app.
      * apply (Hrt j Hj). apply elem_of_app. by left.
      * by apply (Hta x).
    + apply NoDup_singleton.
    + intros x ->%list_elem_of_singleton Hin.
      apply (Hrt j Hj). apply elem_of_app. by right.
  - destruct (pool s !! j) as [t|]; [|done].
    destruct (finished t); by simplify_eq.
  - simplify_eq. simpl.
    by rewrite (Permutation_app_comm (taken s) (tasks_ s)).
  - destruct (joins s !! k) as [j|]; [|done].
    destruct (returned j); [done|].
    destruct (forallb _ (active j)); by simplify_eq.
Qed.

Lemma initial_well_formed : well_formed initial.
Proof. intros i Hi. by apply elem_of_nil in Hi. Qed.

Lemma initial_joined_finished : joined_finished initial.
Proof. intros j i Hj. by apply elem_of_nil in Hj. Qed.

(** The invariants of an execution. *)
Lemma exec_invariants s tr s' :
  exec s tr = Some s' ->
  well_formed s -> NoDup (held s) ->
  well_formed s' /\ NoDup (held s').
Proof.
  revert s. induction tr as [|ev tr IH]; intros s; cbn [exec].
  - by intros [= ->].
  - destruct (step s ev) as [s1|] eqn:Hstep; [|done].
    intros Hexec Hwf Hnd. apply (IH _ Hexec).
    + by eapply step_well_formed.
    + by eapply step_held_nodup.
Qed.

(** The vector of a join never changes, and a join that is over stays
    so. *)
Lemma step_join_stable s ev s' k j :
  step s ev = Some s' -> joins s !! k = Some j ->
  exists j', joins s' !! k = Some j' /\ active j' = active j
             /\ (returned j = true -> returned j' = true)
             /\ (ev <> wait_return k -> returned j' = returned j).
Proof.
  destruct ev as [g|n|n| |m]; simpl; intros Hstep Hk.
  - simplify_eq. by exists j.
  - case_bool_decide; simplify_eq. by exists j.
  - destruct (pool s !! n) as [t|]; [|done].
    destruct (finished t); simplify_eq. by exists j.
  - simplify_eq. simpl. exists j. split; [|done].
    by apply lookup_app_l_Some.
  - destruct (joins s !! m) as [jm|] eqn:Hm; [|done].
    destruct (returned jm) eqn:Hrm; [done|].
    destruct (forallb _ (active jm)); simplify_eq. simpl.
    destruct (decide (m = k)) as [->|Hne].
    + simplify_eq. eexists. split.
      * apply list_lookup_insert_eq. by eapply lookup_lt_Some.
      * simpl. split; [done|]. split; [done|]. by intros [].
    + exists j. split; [|done]. by rewrite list_lookup_insert_ne.
Qed.

Lemma exec_join_stable s tr s' k j :
  exec s tr = Some s' -> joins s !! k = Some j ->
  exists j', joins s' !! k = Some j' /\ active j' = active j
             /\ (returned j = true -> returned j' = true).
Proof.
  revert s j. induction tr as [|ev tr IH]; intros s j; cbn [exec].
  - intros [= ->] Hk. by exists j.
  - destruct (step s ev) as [s1|] eqn:Hstep; [|done]. intros Hexec Hk.
    destruct (step_join_stable _ _ _ _ _ Hstep Hk) as (j1 & Hk1 & Ha1 & Hr1 & _).
    destruct (IH _ _ Hexec Hk1) as (j' & Hk' & Ha' & Hr').
    exists j'. split; [done|]. split; [congruence|tauto].
Qed.

(** A future is pushed by the [run] call that holds it. *)
Lemma exec_pushed_origin s tr s' i :
  exec s tr = Some s' -> i ∈ pushed tr ->
  i ∈ in_run s \/ length (pool s) <= i.
Proof.
  revert s. induction tr as [|ev tr IH]; intros s; cbn [exec].
  - intros _ Hi. unfold pushed in Hi. simpl in Hi. by apply elem_of_nil in Hi.
  - destruct (step s ev) as [s1|] eqn:Hstep; [|done]. intros Hexec Hi.
    apply pushed_cons in Hi as [->|Hi].
    + simpl in Hstep. case_bool_decide; [by left|done].
    + specialize (IH _ Hexec Hi).
      destruct ev as [g|n|n| |m]; simpl in Hstep.
      * simplify_eq. simpl in IH. rewrite elem_of_app, list_elem_of_singleton,
          length_app in IH. simpl in IH.
        destruct IH as [[?| ->]|?]; [by left|right; lia|right; lia].
      * case_bool_decide; simplify_eq. simpl in IH.
        rewrite list_elem_of_filter in IH. tauto.
      * destruct (pool s !! n) as [t|]; [|done].
        destruct (finished t); simplify_eq. simpl in IH.
        by rewrite length_insert in IH.
      * by simplify_eq.
      * destruct (joins s !! m) as [j|]; [|done].
        destruct (returned j); [done|].
        destruct (forallb _ (active j)); by simplify_eq.
Qed.

(** The runtime can always complete the tasks of a vector, and doing so
    touches neither the handle nor the waits. *)
Lemma finish_pending (l : list nat) (s : state) :
  (forall i, i ∈ l -> i < length (pool s)) ->
  exists tr s',
    exec s tr = Some s'
    /\ pushed tr = []
    /\ existsb is_wait_swap tr = false
    /\ existsb is_wait_return tr = false
    /\ (forall i, i ∈ l -> is_finished s' i = true)
    /\ length (pool s') = length (pool s)
    /\ tasks_ s' = tasks_ s
    /\ joins s' = joins s.
Proof.
  revert s. induction l as [|i l IH]; intros s Hlt.
  - exists [], s. repeat split; try done. intros i Hi.
    by apply elem_of_nil in Hi.
  - destruct (is_finished s i) eqn:Hi.
    + destruct (IH s) as (tr & s' & Hexec & Hp & Hw & Hr & Hfin & Hlen & Ht & Hj).
      { intros j Hj. apply Hlt. by apply elem_of_cons; right. }
      exists tr, s'. repeat split; try done.
      intros j [->|Hj']%elem_of_cons; [|by apply Hfin].
      apply (exec_finished _ _ _ _ Hexec). by left.
    + destruct (lookup_lt_is_Some_2 (pool s) i) as [t Ht].
      { apply Hlt, list_elem_of_here. }
      assert (finished t = false) as Hft.
      { unfold is_finished in Hi. by rewrite Ht in Hi. }
      assert (exists s1, step s (task_finish i) = Some s1
                         /\ length (pool s1) = length (pool s)
                         /\ tasks_ s1 = tasks_ s
                         /\ joins s1 = joins s)
        as (s1 & Hs1 & Hl1 & Ht1 & Hj1).
      { simpl. rewrite Ht, Hft. eexists. split; [done|]. simpl.
        by rewrite length_insert. }
      destruct (IH s1) as (tr & s' & Hexec & Hp & Hw & Hr & Hfin & Hlen & Hts & Hj).
      { intros j Hj. rewrite Hl1. apply Hlt. by apply elem_of_cons; right. }
      exists (task_finish i :: tr), s'. cbn [exec]. rewrite Hs1.
      repeat split; try done; try congruence.
      intros j [->|Hj']%elem_of_cons; [|by apply Hfin].
      apply (exec_finished _ _ _ _ Hexec). left.
      apply (step_finished _ _ _ _ Hs1). by right.
Qed.

(** The error a returning join propagates is the one [Parallel.wait]
    computes from the outcomes of the joined tasks. *)
Lemma wait_outcome_sequential s k j :
  joins s !! k = Some j ->
  forallb (is_finished s) (active j) = true ->
  wait_outcome s k
  = Some (snd (Parallel.wait {| Parallel.tasks_ := results s (active j) |})).
Proof.
  intros Hk Hall. unfold wait_outcome. rewrite Hk. simpl. f_equal.
  unfold Parallel.wait, Parallel.when. simpl.
  destruct (active j) as [|i l]; [done|].
  simpl in Hall. apply andb_true_iff in Hall as [Hi _].
  unfold is_finished in Hi. destruct (pool s !! i) as [t|] eqn:Ht; [|done].
  assert (exists f fs, results s (i :: l) = f :: fs) as (f & fs & ->).
  { unfold results. simpl. rewrite Ht. simpl. by eexists _, _. }
  done.
Qed.

(** C1 (amended): in every execution of a handle created empty, also
    with several waits in progress, when the [wait] that swaps after the
    trace [tr1] returns, every task that was on the handle's vector at
    that swap is finished; these are all the tasks [run] had registered
    during [tr1] when every earlier [wait] has returned by then.  The
    tasks registered between the swap and the return are not in the
    vector this [wait] joins, and are finished only if the runtime
    completed them. *)
Theorem wait_joins_pending_tasks
    (tr1 tr2 : list event) (s1 s2 s3 : state) :
  exec initial tr1 = Some s1 ->
  exec s1 (wait_swap :: tr2) = Some s2 ->
  step s2 (wait_return (length (joins s1))) = Some s3 ->
  (exists j, joins s2 !! length (joins s1) = Some j /\ active j = tasks_ s1)
  /\ (forall i, i ∈ tasks_ s1 -> is_finished s3 i = true)
  /\ (Forall (fun j => returned j = true) (joins s1) ->
      forall i, i ∈ pushed tr1 -> is_finished s3 i = true)
  /\ (forall i, i ∈ pushed tr2 ->
       (i ∉ tasks_ s1)
       /\ (is_finished s3 i = true <-> i ∈ completed (tr1 ++ tr2))).
Proof.
  intros H1 H2 H3. cbn [exec] in H2. simpl in H2.
  destruct (exec_invariants _ _ _ H1 initial_well_formed) as [Hwf Hnd];
    [constructor|].
  match type of H2 with
  | exec ?s0 tr2 = _ =>
      destruct (exec_join_stable s0 tr2 s2 (length (joins s1))
                  {| active := tasks_ s1; returned := false |} H2)
        as (j & Hk & Ha & _)
  end.
  { simpl. by apply list_lookup_middle. }
  simpl in Ha.
  assert (forall i, is_finished s3 i = is_finished s2 i) as H32.
  { intros i. simpl in H3. rewrite Hk in H3.
    destruct (returned j); [done|].
    destruct (forallb _ (active j)); by simplify_eq. }
  assert (forall i, i ∈ tasks_ s1 -> is_finished s3 i = true) as Hjoined.
  { intros i Hi. rewrite H32. simpl in H3. rewrite Hk in H3.
    destruct (returned j); [done|].
    destruct (forallb (is_finished s2) (active j)) eqn:Hall; [|done].
    apply (forallb_finished s2 (active j)); [done|]. by rewrite Ha. }
  assert (forall i, is_finished s1 i = true -> is_finished s3 i = true)
    as Hmono.
  { intros i Hi. rewrite H32. apply (exec_finished _ _ _ i H2). by left. }
  split; [by exists j|]. split; [done|]. split.
  - intros Hret i Hi.
    assert (accounted s1 i) as [Hin|[Hin|Hdone]]
      by (eapply exec_accounted; [exact H1|by right]).
    + by apply Hjoined.
    + apply elem_of_taken in Hin as (j0 & Hj0 & Hi0). apply Hmono.
      apply (exec_joined_finished _ _ _ H1 initial_joined_finished j0);
        [done| |done].
      rewrite Forall_forall in Hret. by apply Hret.
    + by apply Hmono.
  - intros i Hi. split.
    + intros Hin.
      destruct (exec_pushed_origin _ _ _ i H2 Hi) as [Hrun|Hge]; simpl in *.
      * unfold held in Hnd. apply NoDup_app in Hnd as (_ & Hdis & _).
        apply (Hdis i Hrun). apply elem_of_app. by left.
      * assert (i < length (pool s1)); [|lia].
        apply Hwf. unfold held. rewrite !elem_of_app. auto.
    + rewrite H32, (exec_finished _ _ _ i H2). simpl.
      rewrite (exec_finished _ _ _ i H1).
      unfold completed at 3. rewrite omap_app, elem_of_app.
      unfold is_finished, completed. simpl. intuition congruence.
Qed.

Lemma wait_joins_pending_tasks_witness :
  let tr1 := [run_async None; run_push 0; task_finish 0] in
  let tr2 := [run_async (Some (Parallel.user_exception 1)); run_push 1] in
  exists s3,
    exec initial (tr1 ++ wait_swap :: tr2 ++ [wait_return 0]) = Some s3
    /\ is_finished s3 0 = true
    /\ (1 ∉ [0])
    /\ is_finished s3 1 = false.
Proof.
  eexists. split; [vm_compute; reflexivity|].
  edestruct (wait_joins_pending_tasks
               [run_async None; run_push 0; task_finish 0]
               [run_async (Some (Parallel.user_exception 1)); run_push 1])
    as (_ & _ & H1 & H2); [vm_compute; reflexivity ..|].
  split; [apply H1; [constructor|apply list_elem_of_here]|].
  split; [|reflexivity].
  apply (H2 1). apply list_elem_of_here.
Defined.

(** C1 as stated fails when waits overlap: a task is registered, a first
    [wait] swaps it out, a second [wait] swaps an empty vector and
    returns while the task, registered before that second call, is still
    running. *)
Lemma overlapping_wait_counterexample :
  let tr1 := [run_async None; run_push 0; wait_swap] in
  exists s,
    exec initial (tr1 ++ [wait_swap; wait_return 1]) = Some s
    /\ 0 ∈ pushed tr1
    /\ is_finished s 0 = false.
Proof.
  eexists. split; [reflexivity|]. split; [apply list_elem_of_here|reflexivity].
Qed.

End InterleavingFacts.

(** * Properties of the sender traits and of [connect] *)

Module BasicExecutionFacts.
Import BasicExecution.

Lemma qualified_is_sender (T : cxx_type) :
  is_const T && is_volatile T = false ->
  Qualified.sender_traits T = Some (sender_traits (class_of T))
  /\ Qualified.is_sender T = Some (is_sender (class_of T)).
Proof.
  destruct T as [S c v r]. simpl. intros Hcv.
  unfold Qualified.is_sender, Qualified.specialized, Qualified.sender_traits,
    Qualified.sender_traits_cv, is_sender, specialized. simpl.
  destruct r, c, v; done.
Qed.

Lemma declares_has_sender_types S :
  has_sender_types S = true <-> declares_sender_types S.
Proof.
  unfold has_sender_types, has_value_types, has_error_types, has_sends_done,
    declares_sender_types.
  destruct (nested_value_types S), (nested_error_types S),
    (nested_sends_done S); simpl; split; intros H; try done;
    try (repeat split; by eexists);
    destruct H as ([? ?] & [? ?] & [? ?]); done.
Qed.

(** C8 (amended): for every type that is not const volatile, [is_sender]
    is well formed, and true exactly when the decayed type is
    move-constructible and its [sender_traits] carries no
    [__unspecialized] marker.  For a
    class without a [sender_traits] specialization of its own that is
    exactly when it declares [value_types], [error_types] and
    [sends_done], which the traits then expose; with one of them missing
    the traits carry the marker and the query is false.  A user's own
    specialization is taken as written. *)
Theorem is_sender_iff_unmarked (T : cxx_type) :
  is_const T && is_volatile T = false ->
  exists b,
    Qualified.is_sender T = Some b
    /\ Qualified.sender_traits T = Some (sender_traits (class_of T))
    /\ (b = true <->
        move_constructible (class_of T) = true
        /\ unspecialized_marker (sender_traits (class_of T)) = false)
    /\ (direct_traits (class_of T) = None ->
        (declares_sender_types (class_of T) ->
         sender_traits (class_of T) =
           {| value_types := nested_value_types (class_of T);
              error_types := nested_error_types (class_of T);
              sends_done := nested_sends_done (class_of T);
              unspecialized_marker := false |})
        /\ (~ declares_sender_types (class_of T) ->
            sender_traits (class_of T) =
              {| value_types := None; error_types := None;
                 sends_done := None; unspecialized_marker := true |}
            /\ b = false)
        /\ (b = true <->
            move_constructible (class_of T) = true
            /\ declares_sender_types (class_of T)))
    /\ (forall user,
          direct_traits (class_of T) = Some user ->
          sender_traits (class_of T) = user).
Proof.
  intros Hcv. destruct (qualified_is_sender T Hcv) as [Htraits Hsender].
  exists (is_sender (class_of T)). split; [done|]. split; [done|].
  generalize (class_of T). intros S.
  assert (is_sender S = true <->
          move_constructible S = true
          /\ unspecialized_marker (sender_traits S) = false) as Hb.
  { unfold is_sender, specialized. rewrite andb_true_iff.
    destruct (unspecialized_marker (sender_traits S)); intuition congruence. }
  split; [done|]. split.
  - intros Hd. unfold sender_traits in *. rewrite Hd in *.
    pose proof (declares_has_sender_types S) as Hdec.
    destruct (has_sender_types S) eqn:Hh; simpl in *.
    + split; [done|]. split; [intros Hn; destruct Hn; by apply Hdec|].
      rewrite Hb. intuition.
    + assert (~ declares_sender_types S) as Hn
        by (intros Hyes; apply Hdec in Hyes; done).
      split; [done|]. split.
      * intros _. split; [done|].
        apply not_true_is_false. intros Hs. apply Hb in Hs as [_ ?]. done.
      * rewrite Hb. intuition congruence.
  - intros user Hd. unfold sender_traits. by rewrite Hd.
Qed.

Lemma is_sender_iff_unmarked_witness :
  let S := mk_class true (Some 0) (Some 1) (Some true) None in
  Qualified.is_sender (mk_type S true false lvalue_reference) = Some true
  /\ sender_traits S = mk_traits (Some 0) (Some 1) (Some true) false.
Proof.
  destruct (is_sender_iff_unmarked
              (mk_type (mk_class true (Some 0) (Some 1) (Some true) None)
                 true false lvalue_reference) eq_refl)
    as (b & Hb & _ & _ & Hprimary & _).
  destruct (Hprimary eq_refl) as (Hexposes & _ & Hiff).
  split.
  - rewrite Hb. f_equal. apply Hiff. split; [reflexivity|].
    repeat split; by eexists.
  - apply Hexposes. repeat split; by eexists.
Defined.

(** C8 as stated fails: a move-constructible class whose own
    [sender_traits] specialization is empty is a sender although the
    specialization exposes none of the three members; and for a const
    volatile type the query is ill-formed instead of false. *)
Lemma is_sender_specialization_counterexample :
  let X := mk_class true None None None (Some (mk_traits None None None false)) in
  Qualified.is_sender (mk_type X false false no_reference) = Some true
  /\ value_types (sender_traits X) = None
  /\ error_types (sender_traits X) = None
  /\ sends_done (sender_traits X) = None
  /\ Qualified.is_sender (mk_type X true true no_reference) = None.
Proof. repeat split. Qed.

Section ConnectFacts.

Variable is_receiver_v : class_type -> bool.
Variable is_operation_state_v : class_type -> bool.
Variable tag_invoke_connect :
  class_type -> passing -> class_type -> passing -> option class_type.
Variable member_connect :
  class_type -> passing -> class_type -> passing -> option class_type.

Lemma connect_decltype_dispatched S ps R pr :
  connect_decltype tag_invoke_connect member_connect S ps R pr =
    if is_sender S then dispatched tag_invoke_connect member_connect S ps R pr else None.
Proof.
  unfold connect_decltype, operation_select, tag_invoke_impl,
    is_tag_invocable, dispatched.
  destruct (is_sender S); [|done].
  by destruct (tag_invoke_connect S ps R pr).
Qed.

Lemma connect_rejects_non_sender S ps R pr :
  is_sender S = false ->
  connect is_operation_state_v tag_invoke_connect member_connect S ps R pr
  = inr no_viable_overload.
Proof.
  intros H. unfold connect. by rewrite connect_decltype_dispatched, H.
Qed.

(** C7: for a sender, [connect(s, r)] compiles exactly when the
    registered customization, or failing that the sender's own method,
    gives an expression whose type is an operation state, and the call is
    then that expression; with no expression, or with one whose type is
    not an operation state, the call is rejected at compile time. *)
Theorem connect_type_checks_iff_dispatch S ps R pr :
  is_sender S = true ->
  (forall d t,
      connect is_operation_state_v tag_invoke_connect member_connect S ps R pr
      = inl (d, t)
      <-> is_operation_state_v t = true
          /\ (d = customization /\ tag_invoke_connect S ps R pr = Some t
              \/ d = sender_method
                 /\ tag_invoke_connect S ps R pr = None
                 /\ member_connect S ps R pr = Some t))
  /\ (tag_invoke_connect S ps R pr = None ->
      member_connect S ps R pr = None ->
      connect is_operation_state_v tag_invoke_connect member_connect S ps R pr
      = inr no_viable_overload)
  /\ (forall d t,
        dispatched tag_invoke_connect member_connect S ps R pr = Some (d, t) ->
        is_operation_state_v t = false ->
        connect is_operation_state_v tag_invoke_connect member_connect S ps R pr
        = inr not_an_operation_state).
Proof.
  intros HS. unfold connect. rewrite connect_decltype_dispatched, HS.
  unfold dispatched. split; [|split].
  - intros d t.
    destruct (tag_invoke_connect S ps R pr) as [t1|];
      [|destruct (member_connect S ps R pr) as [t2|]].
    + destruct (is_operation_state_v t1) eqn:Hop; split.
      * intros [= <- <-]. auto.
      * intros [_ [[-> [= ->]]|(_ & [=] & _)]]. done.
      * done.
      * intros [Ht [[_ [= ->]]|(_ & [=] & _)]]. congruence.
    + destruct (is_operation_state_v t2) eqn:Hop; split.
      * intros [= <- <-]. auto.
      * intros [_ [[_ [=]]|(-> & _ & [= ->])]]. done.
      * done.
      * intros [Ht [[_ [=]]|(_ & _ & [= ->])]]. congruence.
    + split; [done|]. intros [_ [[_ [=]]|(_ & _ & [=])]].
  - by intros -> ->.
  - intros d t Hd Ht. by rewrite Hd, Ht.
Qed.

(** C4 (amended): [is_sender_to] holds exactly when both capabilities
    hold and [connect] is invocable for at least one of the nine ways of
    passing the sender and the receiver. *)
Theorem is_sender_to_iff_some_combination S R :
  is_sender_to is_receiver_v tag_invoke_connect member_connect S R = true
  <-> is_sender S = true
      /\ is_receiver_v R = true
      /\ exists ps pr, is_callable_connect tag_invoke_connect member_connect S ps R pr = true.
Proof.
  unfold is_sender_to, is_sender_to_impl.
  destruct (is_sender S); simpl; [|by intuition].
  destruct (is_receiver_v R); simpl; [|by intuition].
  rewrite !orb_true_iff. split.
  - intros H. split; [done|]. split; [done|].
    repeat (destruct H as [H|H]); eauto.
  - intros (_ & _ & ps & pr & H). destruct ps, pr; tauto.
Qed.

End ConnectFacts.

Lemma connect_type_checks_iff_dispatch_witness :
  let S := mk_class true (Some 0) (Some 0) (Some false) None in
  let R := mk_class true None None None None in
  let op := mk_class true None None None None in
  let not_op := mk_class false None None None None in
  is_sender S = true
  /\ connect (fun t => move_constructible t)
       (fun _ _ _ _ => Some op) (fun _ _ _ _ => Some not_op)
       S by_mutable_ref R by_value
     = inl (customization, op).
Proof.
  split; [reflexivity|].
  apply (proj1 (connect_type_checks_iff_dispatch
                  (fun t => move_constructible t)
                  (fun _ _ _ _ => Some (mk_class true None None None None))
                  (fun _ _ _ _ => Some (mk_class false None None None None))
                  (mk_class true (Some 0) (Some 0) (Some false) None)
                  by_mutable_ref
                  (mk_class true None None None None)
                  by_value eq_refl)).
  split; [reflexivity|]. left. split; reflexivity.
Defined.

(** C4 as stated fails: a sender whose [connect] method can only be called
    on an rvalue with an rvalue receiver is a sender to that receiver,
    although [connect] is not invocable for the other eight
    combinations. *)
Lemma is_sender_to_all_nine_counterexample :
  let S := mk_class true (Some 0) (Some 0) (Some false) None in
  let R := mk_class true None None None None in
  let is_receiver_v := fun _ : class_type => true in
  let tag_invoke_connect :=
    fun (_ : class_type) (_ : passing) (_ : class_type) (_ : passing) =>
      @None class_type in
  let member_connect :=
    fun (_ : class_type) (ps : passing) (_ : class_type) (pr : passing) =>
      match ps, pr with
      | by_value, by_value => Some R
      | _, _ => None
      end in
  is_sender_to is_receiver_v tag_invoke_connect member_connect S R = true
  /\ is_callable_connect tag_invoke_connect member_connect
       S by_mutable_ref R by_value = false
  /\ ~ (is_sender_to is_receiver_v tag_invoke_connect member_connect S R = true
        <-> is_sender S = true
            /\ is_receiver_v R = true
            /\ forall ps pr,
                 is_callable_connect tag_invoke_connect member_connect
                   S ps R pr = true).
Proof.
  split; [reflexivity|]. split; [reflexivity|].
  intros [H _]. destruct (H eq_refl) as (_ & _ & Hall).
  specialize (Hall by_mutable_ref by_value). discriminate Hall.
Qed.

End BasicExecutionFacts.

(** * Further properties of the task region *)

Module RegionExtras.
Import Parallel ParallelFacts.
Local Open Scope region_scope.

(** X1: [wait] leaves the handle's vector empty, whether it returns or
    raises: a second [wait] on the handle it leaves returns normally and
    reports nothing, also after the error of the first was handled, the
    join of the destructor then swaps out an empty vector and has
    nothing to wait for, and a task spawned after the [wait] is the only
    one on the handle. *)
Theorem wait_reports_once (trh : task_region_handle) :
  tasks_ (fst (wait trh)) = []
  /\ wait (fst (wait trh)) = (new_handle, None)
  /\ (try_catch_all wait ;; wait) trh = (new_handle, None)
  /\ when [] (fst (wait trh)) = (new_handle, None)
  /\ (forall g,
        (try_catch_all wait ;; run g) trh = ({| tasks_ := [async g] |}, None)).
Proof.
  unfold seq, try_catch_all. rewrite !wait_spec. simpl.
  repeat split; done.
Qed.

(** X2: when the body leaves at least one task pending, the future of the
    future-returning entry point holds exactly what the blocking entry
    point throws; when it leaves none, the future holds no error. *)
Theorem task_region_async_agrees
    (f : region_body) (trh : task_region_handle) (r : option exception_ptr) :
  f new_handle = (trh, r) ->
  (tasks_ trh <> [] -> task_region_async f = task_region f)
  /\ (tasks_ trh = [] -> task_region_async f = None)
  /\ task_region_final_async f = task_region_async f.
Proof.
  intros Hf. unfold task_region_final_async.
  rewrite (task_region_async_spec f trh r Hf), (task_region_spec f trh r Hf).
  split; [|split; [|done]].
  - by destruct (tasks_ trh).
  - by intros ->.
Qed.

Lemma task_region_async_agrees_witness :
  let f := (run (Some (user_exception 1)) ;; throw (user_exception 2)) in
  task_region_async f = task_region f.
Proof.
  exact (proj1 (task_region_async_agrees
                  (run (Some (user_exception 1)) ;; throw (user_exception 2))
                  {| tasks_ := [Some (user_exception 1)] |}
                  (Some (user_exception 2)) eq_refl)
               ltac:(discriminate)).
Defined.

(** X3: spawning the tasks [gs] and joining reports the errors of the
    failed tasks, those already pending first, in the order the tasks were
    registered; the join returns normally exactly when none failed. *)
Theorem run_all_then_wait (gs : list task) (trh : task_region_handle) :
  (run_all gs ;; wait) trh
  = (new_handle, composite (failures (tasks_ trh ++ gs)))
  /\ cause_count (snd ((run_all gs ;; wait) trh))
     = length (failures (tasks_ trh)) + length (failures gs)
  /\ (snd ((run_all gs ;; wait) trh) = None
      <-> Forall (fun g => g = None) (tasks_ trh ++ gs)).
Proof.
  assert ((run_all gs ;; wait) trh
          = (new_handle, composite (failures (tasks_ trh ++ gs)))) as ->.
  { unfold seq. by rewrite run_all_spec, wait_spec. }
  split; [done|]. simpl. split.
  - rewrite cause_count_composite. unfold failures.
    by rewrite omap_app, length_app.
  - rewrite composite_None. generalize (tasks_ trh ++ gs). intros l.
    induction l as [|[e|] l IH]; simpl.
    + split; [constructor|done].
    + split; [done|]. by intros [[=] _]%Forall_cons_1.
    + unfold failures in IH. rewrite IH. split.
      * by constructor.
      * by intros [_ ?]%Forall_cons_1.
Qed.

(** X4: what [wait] and the entry points surface is never a bare error
    and never an empty aggregator: they return normally or raise an
    [exception_list] with at least one error. *)
Theorem surfaced_error_is_nonempty_list
    (f : region_body) (trh : task_region_handle) (e : exception_ptr) :
  (task_region f = Some e \/ task_region_final f = Some e
   \/ task_region_async f = Some e \/ snd (wait trh) = Some e) ->
  exists c el, e = thrown_list (c :: el).
Proof.
  destruct (f new_handle) as [trh' r] eqn:Hf.
  unfold task_region_final.
  rewrite (task_region_spec f trh' r Hf), (task_region_async_spec f trh' r Hf),
    wait_spec. simpl.
  assert (forall l, composite l = Some e -> exists c el, e = thrown_list (c :: el))
    as Hc.
  { intros [|c l]; simpl; [done|]. intros [= <-]. by eexists _, _. }
  intros [H|[H|[H|H]]]; try by eapply Hc.
  destruct (tasks_ trh'); [done|]. by eapply Hc.
Qed.

Lemma surfaced_error_is_nonempty_list_witness :
  exists c el, thrown_list [user_exception 4] = thrown_list (c :: el).
Proof.
  exact (surfaced_error_is_nonempty_list (throw (user_exception 4)) new_handle
           (thrown_list [user_exception 4]) (or_introl eq_refl)).
Defined.

End RegionExtras.

(** * Further properties of [connect] and the traits *)

Module ConnectExtras.
Import BasicExecution BasicExecutionFacts.

Section Extras.

Variable is_receiver_v : class_type -> bool.
Variable is_operation_state_v : class_type -> bool.
Variable tag_invoke_connect :
  class_type -> passing -> class_type -> passing -> option class_type.
Variable member_connect :
  class_type -> passing -> class_type -> passing -> option class_type.

(** X8: [connect] never compiles for a type that is not a sender,
    whatever customization or [connect] method exists for it, and such a
    type is a sender to no receiver. *)
Theorem non_sender_never_connects S R :
  is_sender S = false ->
  (forall ps pr,
      connect is_operation_state_v tag_invoke_connect member_connect S ps R pr
      = inr no_viable_overload)
  /\ is_sender_to is_receiver_v tag_invoke_connect member_connect S R = false.
Proof.
  intros HS. split.
  - intros ps pr. unfold connect.
    by rewrite connect_decltype_dispatched, HS.
  - unfold is_sender_to. by rewrite HS.
Qed.

Lemma is_sender_to_sound S R ps pr :
  is_sender S = true ->
  is_receiver_v R = true ->
  is_callable_connect tag_invoke_connect member_connect S ps R pr = true ->
  is_sender_to is_receiver_v tag_invoke_connect member_connect S R = true.
Proof.
  intros HS HR H. unfold is_sender_to, is_sender_to_impl. rewrite HS, HR.
  simpl. rewrite !orb_true_iff. destruct ps, pr; tauto.
Qed.

(** X9: a call of [connect] that compiles, with a receiver, makes the
    pair satisfy [is_sender_to]; the trait itself only asks for a viable
    overload and does not look at the operation-state requirement. *)
Theorem compiling_connect_gives_sender_to S ps R pr x :
  connect is_operation_state_v tag_invoke_connect member_connect S ps R pr
  = inl x ->
  is_sender S = true
  /\ is_callable_connect tag_invoke_connect member_connect S ps R pr = true
  /\ (is_receiver_v R = true ->
      is_sender_to is_receiver_v tag_invoke_connect member_connect S R = true)
  /\ (forall ps' pr',
        is_callable_connect tag_invoke_connect member_connect S ps' R pr' = true
        <-> connect is_operation_state_v tag_invoke_connect member_connect
              S ps' R pr' <> inr no_viable_overload).
Proof.
  intros Hx.
  assert (is_callable_connect tag_invoke_connect member_connect S ps R pr = true)
    as Hcall.
  { unfold connect in Hx. unfold is_callable_connect.
    by destruct (connect_decltype _ _ S ps R pr). }
  assert (is_sender S = true) as HS.
  { unfold is_callable_connect in Hcall.
    rewrite connect_decltype_dispatched in Hcall.
    by destruct (is_sender S). }
  split; [done|]. split; [done|]. split.
  - intros HR. apply is_sender_to_sound with ps pr; done.
  - intros ps' pr'. unfold connect, is_callable_connect.
    destruct (connect_decltype _ _ S ps' R pr') as [[d t]|]; [|by split].
    split; [|done]. intros _. by destruct (is_operation_state_v t).
Qed.

End Extras.

(** X10: for a class without a [sender_traits] specialization of its own,
    being a sender means being move-constructible and declaring all three
    of [value_types], [error_types] and [sends_done]; the traits then
    expose exactly the class's own members. *)
Theorem embedded_members_make_sender (S : class_type) :
  direct_traits S = None ->
  (is_sender S = true <->
     move_constructible S = true
     /\ is_Some (nested_value_types S)
     /\ is_Some (nested_error_types S)
     /\ is_Some (nested_sends_done S))
  /\ (is_sender S = true ->
      sender_traits S =
        {| value_types := nested_value_types S;
           error_types := nested_error_types S;
           sends_done := nested_sends_done S;
           unspecialized_marker := false |}).
Proof.
  intros Hd. unfold is_sender, specialized, sender_traits. rewrite Hd.
  unfold sender_traits_base, has_sender_types, has_value_types,
    has_error_types, has_sends_done.
  destruct (move_constructible S), (nested_value_types S),
    (nested_error_types S), (nested_sends_done S); simpl;
    (split; [split; [intros H|intros (H1 & [? H2] & [? H3] & [? H4])]
            |intros H]);
    try done; repeat split; eauto.
Qed.

Lemma embedded_members_make_sender_witness :
  is_sender (mk_class true (Some 0) (Some 1) None None) = true
  <-> true = true /\ is_Some (Some 0) /\ is_Some (Some 1) /\ is_Some (@None bool).
Proof.
  exact (proj1 (embedded_members_make_sender
                  (mk_class true (Some 0) (Some 1) None None) eq_refl)).
Defined.

Lemma non_sender_never_connects_witness :
  let S := mk_class true (Some 0) (Some 1) None None in
  let R := mk_class true None None None None in
  connect (fun _ => true) (fun _ _ _ _ => Some R) (fun _ _ _ _ => Some R)
    S by_value R by_value
  = inr no_viable_overload.
Proof.
  exact (proj1 (non_sender_never_connects (fun _ => true) (fun _ => true)
                  (fun _ _ _ _ => Some (mk_class true None None None None))
                  (fun _ _ _ _ => Some (mk_class true None None None None))
                  (mk_class true (Some 0) (Some 1) None None)
                  (mk_class true None None None None) eq_refl)
               by_value by_value).
Defined.

Lemma compiling_connect_gives_sender_to_witness :
  let S := mk_class true (Some 0) (Some 1) (Some true) None in
  let R := mk_class true None None None None in
  is_sender_to (fun _ => true) (fun _ _ _ _ => None)
    (fun _ ps _ _ => match ps with by_value => Some R | _ => None end) S R
  = true.
Proof.
  exact (proj1 (proj2 (proj2
    (compiling_connect_gives_sender_to (fun _ => true) (fun _ => true)
       (fun _ _ _ _ => None)
       (fun _ ps _ _ =>
          match ps with
          | by_value => Some (mk_class true None None None None)
          | _ => None
          end)
       (mk_class true (Some 0) (Some 1) (Some true) None) by_value
       (mk_class true None None None None) by_const_ref
       (sender_method, mk_class true None None None None) eq_refl)))
    eq_refl).
Defined.

End ConnectExtras.

(** * Further properties of the join under interleaving *)

Module InterleavingExtras.
Import Interleaving InterleavingFacts.

Lemma exec_taken_mono s tr s' i :
  exec s tr = Some s' -> i ∈ taken s -> i ∈ taken s'.
Proof.
  revert s. induction tr as [|ev tr IH]; intros s; cbn [exec].
  - by intros [= ->].
  - destruct (step s ev) as [s1|] eqn:Hstep; [|done]. intros Hexec Hi.
    apply (IH _ Hexec). rewrite (step_taken _ _ _ Hstep).
    destruct (is_wait_swap ev); [|done]. apply elem_of_app. by left.
Qed.

Lemma join_nodup_index {A} (ls : list (list A)) k1 k2 l1 l2 x :
  NoDup (mjoin ls) ->
  ls !! k1 = Some l1 -> ls !! k2 = Some l2 -> x ∈ l1 -> x ∈ l2 -> k1 = k2.
Proof.
  revert k1 k2. induction ls as [|l ls IH]; intros k1 k2; [done|].
  simpl. intros (Hl & Hdis & Hls)%NoDup_app H1 H2 Hx1 Hx2.
  assert (forall k l', ls !! k = Some l' -> x ∈ l' -> x ∈ mjoin ls) as Hin.
  { intros k l' Hk Hx. apply list_elem_of_join. exists l'. split; [done|].
    by eapply list_elem_of_lookup_2. }
  destruct k1 as [|k1], k2 as [|k2]; simpl in H1, H2; simplify_eq.
  - done.
  - exfalso. eapply Hdis; [exact Hx1|]. by eapply Hin.
  - exfalso. eapply Hdis; [exact Hx2|]. by eapply Hin.
  - f_equal. by eapply IH.
Qed.

(** X6: throughout every interleaving of [run], [wait] and task
    completion, waits that overlap included, every future held by a
    [run] call in progress, by the handle, or taken by the swap of any
    [wait] so far was returned by [hpx::async], and none is held twice:
    no task is taken by two waits, and a task that a [wait] has taken is
    never on the handle again. *)
Theorem futures_held_once (tr : list event) (s : state) :
  exec initial tr = Some s ->
  NoDup (held s)
  /\ Forall (fun i => i < length (pool s)) (held s)
  /\ (forall k1 k2 j1 j2 i,
        joins s !! k1 = Some j1 -> joins s !! k2 = Some j2 ->
        i ∈ active j1 -> i ∈ active j2 -> k1 = k2)
  /\ (forall tr' s' i,
        exec s tr' = Some s' -> i ∈ taken s ->
        i ∈ taken s' /\ (i ∉ tasks_ s') /\ (i ∉ in_run s')).
Proof.
  intros Hexec.
  destruct (exec_invariants _ _ _ Hexec initial_well_formed) as [Hwf Hnd];
    [constructor|].
  split; [done|]. split; [by apply Forall_forall|]. split.
  - intros k1 k2 j1 j2 i H1 H2 Hi1 Hi2.
    unfold held, taken in Hnd.
    apply NoDup_app in Hnd as (_ & _ & Hnd).
    apply NoDup_app in Hnd as (_ & _ & Hnd).
    apply (join_nodup_index (active <$> joins s) k1 k2 (active j1) (active j2) i);
      try done; rewrite list_lookup_fmap; by (rewrite H1 || rewrite H2).
  - intros tr' s' i Hexec' Hi.
    destruct (exec_invariants _ _ _ Hexec' Hwf Hnd) as [_ Hnd'].
    pose proof (exec_taken_mono _ _ _ _ Hexec' Hi) as Hi'.
    split; [done|]. unfold held in Hnd'.
    apply NoDup_app in Hnd' as (_ & Hdis1 & Hnd').
    apply NoDup_app in Hnd' as (_ & Hdis2 & _).
    split.
    + intros Hin. by apply (Hdis2 i Hin).
    + intros Hin. apply (Hdis1 i Hin). apply elem_of_app. by right.
Qed.

Lemma futures_held_once_witness :
  NoDup [3; 2; 0; 1]
  /\ Forall (fun i => i < 4) [3; 2; 0; 1]
  /\ (forall k1 k2 j1 j2 i,
        [mk_join [0] true; mk_join [1] false] !! k1 = Some j1 ->
        [mk_join [0] true; mk_join [1] false] !! k2 = Some j2 ->
        i ∈ active j1 -> i ∈ active j2 -> k1 = k2).
Proof.
  eassert (exec initial
             [run_async None; run_push 0; wait_swap; run_async None;
              run_async None; run_push 1; task_finish 0; wait_swap;
              wait_return 0; run_push 2; run_async None] = Some _) as Hexec
    by (vm_compute; reflexivity).
  pose proof (futures_held_once _ _ Hexec) as (H1 & H2 & H3 & _).
  exact (conj H1 (conj H2 H3)).
Defined.

Lemma step_pool_outcomes s ev s' :
  step s ev = Some s' ->
  outcome <$> pool s' = (outcome <$> pool s) ++ spawned [ev].
Proof.
  destruct ev as [g|j|j| |k]; simpl; intros Hstep.
  - simplify_eq. simpl. by rewrite fmap_app.
  - case_bool_decide; simplify_eq. simpl. by rewrite app_nil_r.
  - destruct (pool s !! j) as [t|] eqn:Hj; [|done].
    destruct (finished t); simplify_eq. simpl.
    rewrite app_nil_r, list_fmap_insert. simpl.
    apply list_insert_id. by rewrite list_lookup_fmap, Hj.
  - simplify_eq. simpl. by rewrite app_nil_r.
  - destruct (joins s !! k) as [j|]; [|done].
    destruct (returned j); [done|].
    destruct (forallb _ (active j)); simplify_eq. simpl. by rewrite app_nil_r.
Qed.

Lemma exec_pool_outcomes s tr s' :
  exec s tr = Some s' ->
  outcome <$> pool s' = (outcome <$> pool s) ++ spawned tr.
Proof.
  revert s. induction tr as [|ev tr IH]; intros s; cbn [exec].
  - intros [= ->]. unfold spawned. simpl. by rewrite app_nil_r.
  - destruct (step s ev) as [s1|] eqn:Hstep; [|done]. intros Hexec.
    rewrite (IH _ Hexec), (step_pool_outcomes _ _ _ Hstep), <- app_assoc.
    f_equal. unfold spawned. by destruct ev.
Qed.

(** Before any [wait], what [run] registers accumulates on the handle. *)
Lemma exec_before_swap s tr s' :
  exec s tr = Some s' ->
  joins s = [] ->
  existsb is_wait_swap tr = false ->
  joins s' = [] /\ tasks_ s' = tasks_ s ++ pushed tr.
Proof.
  revert s. induction tr as [|ev tr IH]; intros s; cbn [exec existsb].
  - intros [= ->] Hj _. unfold pushed. simpl. by rewrite app_nil_r.
  - destruct (step s ev) as [s1|] eqn:Hstep; [|done].
    intros Hexec Hj Hsw. apply orb_false_iff in Hsw as [Hev Hsw].
    assert (joins s1 = []
            /\ tasks_ s1 ++ pushed tr = tasks_ s ++ pushed (ev :: tr))
      as [Hj1 Ht1].
    { destruct ev as [g|j|j| |k]; simpl in Hstep, Hev.
      - by simplify_eq.
      - case_bool_decide; simplify_eq. simpl. split; [done|].
        unfold pushed. simpl. by rewrite <- app_assoc.
      - destruct (pool s !! j) as [t|]; [|done].
        destruct (finished t); by simplify_eq.
      - done.
      - by rewrite Hj in Hstep. }
    destruct (IH _ Hexec Hj1 Hsw) as [-> ->]. by rewrite Ht1.
Qed.

Lemma omap_agree {A B} (f g : A -> option B) (l : list A) :
  (forall x, x ∈ l -> f x = g x) -> omap f l = omap g l.
Proof.
  intros H. apply list_omap_ext.
  induction l as [|x l IH]; constructor.
  - apply H, list_elem_of_here.
  - apply IH. intros y Hy. apply H. by apply elem_of_cons; right.
Qed.

(** X7: the error the first [wait] of a region propagates does not depend
    on the interleaving: whatever [run], the runtime and other waits do
    between its swap and its return, it is the error the sequential
    [wait] computes from the tasks registered before the swap, in the
    order of their registration. *)
Theorem wait_outcome_schedule_independent
    (tr1 tr2 : list event) (s : state) :
  exec initial (tr1 ++ wait_swap :: tr2) = Some s ->
  existsb is_wait_swap tr1 = false ->
  is_Some (step s (wait_return 0)) ->
  wait_outcome s 0
  = Some (snd (Parallel.wait
                 {| Parallel.tasks_ :=
                      omap (fun i => spawned tr1 !! i) (pushed tr1) |})).
Proof.
  intros Hexec Hsw Hstep. pose proof Hexec as Hall.
  rewrite exec_app in Hexec.
  destruct (exec initial tr1) as [s1|] eqn:H1; [|done].
  destruct (exec_before_swap _ _ _ H1 eq_refl Hsw) as [Hj1 Ht1].
  simpl in Ht1. cbn [exec] in Hexec. simpl in Hexec. rewrite Hj1 in Hexec.
  match type of Hexec with
  | exec ?s0 tr2 = _ =>
      destruct (exec_join_stable s0 tr2 s 0
                  {| active := tasks_ s1; returned := false |} Hexec eq_refl)
        as (j & Hk & Ha & _)
  end.
  simpl in Ha.
  assert (forallb (is_finished s) (active j) = true) as Hfin.
  { destruct Hstep as [s' Hs']. simpl in Hs'. rewrite Hk in Hs'.
    destruct (returned j); [done|].
    by destruct (forallb _ (active j)). }
  rewrite (wait_outcome_sequential s 0 j Hk Hfin). do 4 f_equal.
  rewrite Ha, Ht1. unfold results. apply omap_agree. intros i Hi.
  rewrite <- list_lookup_fmap, (exec_pool_outcomes _ _ _ Hall). simpl.
  assert (spawned (tr1 ++ wait_swap :: tr2) = spawned tr1 ++ spawned tr2)
    as ->.
  { unfold spawned. by rewrite omap_app. }
  apply lookup_app_l.
  pose proof (exec_pool_outcomes _ _ _ H1) as Hp. simpl in Hp.
  rewrite <- Hp, length_fmap.
  destruct (exec_invariants _ _ _ H1 initial_well_formed) as [Hwf _];
    [constructor|].
  apply Hwf. unfold held. rewrite !elem_of_app. right. left. by rewrite Ht1.
Qed.

Lemma wait_outcome_schedule_independent_witness :
  wait_outcome
    (mk_state [mk_task (Some (Parallel.user_exception 1)) true;
               mk_task None true; mk_task None false]
              [] [] [mk_join [1; 0] false; mk_join [2] false]) 0
  = Some (Some (Parallel.thrown_list [Parallel.user_exception 1])).
Proof.
  apply (wait_outcome_schedule_independent
           [run_async (Some (Parallel.user_exception 1)); run_async None;
            run_push 1; task_finish 1; run_push 0]
           [run_async None; task_finish 0; run_push 2; wait_swap]).
  - vm_compute; reflexivity.
  - reflexivity.
  - eexists. vm_compute; reflexivity.
Defined.

(** X5: after any history, waits that overlap included, every [wait]
    that has swapped and not returned is able to return: the runtime can
    complete the tasks of its vector, after which its join ends with all
    of them finished, nothing having been registered or swapped
    meanwhile. *)
Theorem join_can_complete (tr : list event) (s : state) (k : nat) (j : join) :
  exec initial tr = Some s ->
  joins s !! k = Some j ->
  returned j = false ->
  exists tr2 s',
    exec s (tr2 ++ [wait_return k]) = Some s'
    /\ pushed tr2 = []
    /\ existsb is_wait_swap tr2 = false
    /\ existsb is_wait_return tr2 = false
    /\ (forall i, i ∈ active j -> is_finished s' i = true)
    /\ tasks_ s' = tasks_ s
    /\ joins s' !! k = Some {| active := active j; returned := true |}.
Proof.
  intros Hexec Hk Hr.
  destruct (exec_invariants _ _ _ Hexec initial_well_formed) as [Hwf _];
    [constructor|].
  destruct (finish_pending (active j) s)
    as (tr2 & s2 & H2 & Hp & Hsw & Hret & Hfin & _ & Ht & Hj).
  { intros i Hi. apply Hwf. unfold held. rewrite !elem_of_app. right. right.
    apply elem_of_taken. exists j. split; [|done].
    by eapply list_elem_of_lookup_2. }
  assert (forallb (is_finished s2) (active j) = true) as Hall.
  { apply forallb_forall. intros i Hi. by apply Hfin, list_elem_of_In. }
  exists tr2. eexists. rewrite exec_app, H2. cbn [exec]. simpl.
  rewrite Hj, Hk, Hr, Hall. split; [done|]. simpl.
  repeat split; try done.
  apply list_lookup_insert_eq. by eapply lookup_lt_Some.
Qed.

Lemma join_can_complete_witness :
  exists tr2 s',
    exec (mk_state [mk_task None false; mk_task None false] [] []
            [mk_join [0] false; mk_join [1] false])
      (tr2 ++ [wait_return 1]) = Some s'
    /\ pushed tr2 = []
    /\ existsb is_wait_swap tr2 = false
    /\ existsb is_wait_return tr2 = false
    /\ (forall i, i ∈ active (mk_join [1] false) -> is_finished s' i = true)
    /\ tasks_ s' = []
    /\ joins s' !! 1 = Some {| active := [1]; returned := true |}.
Proof.
  apply (join_can_complete
           [run_async None; run_push 0; wait_swap; run_async None;
            run_push 1; wait_swap]
           (mk_state [mk_task None false; mk_task None false] [] []
              [mk_join [0] false; mk_join [1] false])
           1 (mk_join [1] false)).
  - vm_compute; reflexivity.
  - reflexivity.
  - reflexivity.
Defined.

End InterleavingExtras.

(** * Properties of the MPI environment *)

Module MpiEnvironmentFacts.
Import MpiEnvironment.

Section Facts.

Variable MPI_SUCCESS : Z.
Variable MPI_ERR_OTHER : Z.
Variable MPI_THREAD_SINGLE : Z.
Variable MPI_THREAD_FUNNELED : Z.
Variable MPI_THREAD_SERIALIZED : Z.
Variable MPI_THREAD_MULTIPLE : Z.
Variable runtime_configuration : Type.
Variable add_entry :
  runtime_configuration -> string -> string -> runtime_configuration.
Variable get_entry : runtime_configuration -> string -> string -> string.
Variable get_entry_as : runtime_configuration -> string -> Z -> Z.
Variable set_mode_ : runtime_configuration -> runtime_mode -> runtime_configuration.
Variable tokenizer : string -> string -> list string.
Variable getenv : string -> option string.
Variable to_string : Z -> string.
Variable HPX_HAVE_PARCELPORT_MPI_ENV : string.
Variable HPX_HAVE_PARCELPORT_MPI_MULTITHREADED : bool.

Let init_with (mpi : mpi_library) :=
  init MPI_SUCCESS MPI_ERR_OTHER MPI_THREAD_SINGLE MPI_THREAD_FUNNELED
    MPI_THREAD_SERIALIZED MPI_THREAD_MULTIPLE runtime_configuration
    add_entry get_entry get_entry_as set_mode_ tokenizer getenv to_string
    HPX_HAVE_PARCELPORT_MPI_ENV HPX_HAVE_PARCELPORT_MPI_MULTITHREADED mpi.

Let check :=
  check_mpi_environment runtime_configuration get_entry get_entry_as
    tokenizer getenv HPX_HAVE_PARCELPORT_MPI_ENV.

(** What [init_thread] leaves in the static members. *)
Lemma init_thread_spec mpi required minimal provided env env' provided' r :
  init_thread MPI_SUCCESS mpi required minimal provided env
  = (env', provided', r) ->
  enabled_ env' = enabled_ env
  /\ communicator_ env' = communicator_ env
  /\ (has_called_init_ env' = true ->
      r = inl MPI_SUCCESS /\ snd (MPI_Initialized mpi) = false
      /\ calls env' =
           calls env ++
           [call_MPI_Initialized; call_LCI_initialize;
            call_MPI_Init_thread required;
            call_MPI_Comm_rank MPI_COMM_WORLD;
            call_MPI_Comm_size MPI_COMM_WORLD;
            call_MPI_Bcast; call_MPI_Gather])
  /\ (snd (MPI_Initialized mpi) = true \/
      fst (MPI_Initialized mpi) <> MPI_SUCCESS ->
      has_called_init_ env' = false
      /\ calls env' = calls env ++ [call_MPI_Initialized]
      /\ r = inl (fst (MPI_Initialized mpi))).
Proof.
  unfold init_thread. destruct (MPI_Initialized mpi) as [retval flag].
  destruct (MPI_SUCCESS =? retval)%Z eqn:Hret; simpl.
  - apply Z.eqb_eq in Hret as <-. destruct flag; simpl.
    + intros [= <- <- <-]. simpl. intuition congruence.
    + destruct (MPI_Init_thread mpi required) as [retval' provided0].
      destruct (MPI_SUCCESS =? retval')%Z eqn:Hret'; simpl.
      * apply Z.eqb_eq in Hret' as <-.
        destruct (provided0 <? minimal)%Z; intros [= <- <- <-]; simpl;
          rewrite <- ?app_assoc; simpl; intuition congruence.
      * intros [= <- <- <-]. simpl. intuition congruence.
  - apply Z.eqb_neq in Hret. intros [= <- <- <-]. simpl. intuition congruence.
Qed.

(** X11: after [init], whatever it did and however it ended,
    [has_called_init_] implies [enabled_] and a normal return; when it
    ends with one of its [std::runtime_error]s, MPI is disabled, and
    [rank] and [size] answer -1 without calling the library; when the
    environment check fails, it calls no library function and only
    records [hpx.parcel.mpi.enable = 0]; when it ends with
    [invalid_status], MPI stays enabled with [has_called_init_] unset. *)
Theorem init_postconditions
    (mpi : mpi_library) (env env' : mpi_environment)
    (rtcfg rtcfg' : runtime_configuration) (r : option exception) :
  init_with mpi env rtcfg = (env', rtcfg', r) ->
  (has_called_init_ env' = true -> enabled_ env' = true /\ r = None)
  /\ (r = None -> enabled_ env = false -> enabled_ env' = check rtcfg)
  /\ (r <> None -> r <> Some invalid_status ->
      enabled_ env' = false /\ has_called_init_ env' = false
      /\ rank mpi env' = (env', (-1)%Z) /\ size mpi env' = (env', (-1)%Z))
  /\ (enabled_ env = false -> check rtcfg = false ->
      r = None /\ calls env' = calls env
      /\ rtcfg' = add_entry rtcfg "hpx.parcel.mpi.enable" "0")
  /\ (r = Some invalid_status ->
      enabled_ env' = true /\ has_called_init_ env' = false).
Proof.
  unfold init_with, init, check.
  destruct (enabled_ env) eqn:Hen.
  { intros [= <- <- <-]. intuition congruence. }
  simpl.
  destruct (check_mpi_environment _ _ _ _ _ _ rtcfg) eqn:Hcheck; simpl.
  2:{ intros [= <- <- <-]. simpl. intuition congruence. }
  match goal with
  | |- context [init_thread _ _ ?req ?min ?p ?e] =>
      destruct (init_thread MPI_SUCCESS mpi req min p e)
        as [[env1 provided1] r1] eqn:Hit;
      destruct (init_thread_spec _ _ _ _ _ _ _ _ Hit) as (He1 & _ & Hc1 & _)
  end.
  simpl in He1.
  destruct r1 as [retval|e].
  2:{ intros [= <- <- <-]. simpl.
      assert (has_called_init_ env1 = false) as Hh1.
      { destruct (has_called_init_ env1); [|done].
        by destruct (Hc1 eq_refl) as [[=] _]. }
      split; [by rewrite Hh1|]. split; [done|].
      split; [|split; [intros _ Hc; by rewrite Hc in Hcheck|done]].
      intros _ Hne. exfalso. apply Hne.
        unfold init_thread in Hit.
        destruct (MPI_Initialized mpi) as [? []];
          destruct (MPI_SUCCESS =? _)%Z; simpl in Hit; simplify_eq.
        destruct (MPI_Init_thread mpi _) as [? ?].
        destruct (MPI_SUCCESS =? _)%Z; simpl in Hit; simplify_eq.
        destruct (_ <? _)%Z; by simplify_eq. }
  destruct (negb (MPI_SUCCESS =? retval)%Z && negb (MPI_ERR_OTHER =? retval)%Z)
    eqn:Hfail.
  { intros [= <- <- <-]. unfold rank, size, enabled. simpl.
    apply andb_true_iff in Hfail as [Hs _].
    apply negb_true_iff, Z.eqb_neq in Hs.
    assert (has_called_init_ env1 = false) as Hh1.
    { destruct (has_called_init_ env1); [|done].
      destruct (Hc1 eq_refl) as [[= ->] _]. done. }
    split; [|split; [|split; [|split]]]; try done.
    by rewrite Hh1. }
  simpl.
  destruct (_ =? MPI_THREAD_FUNNELED)%Z.
  { intros [= <- <- <-]. unfold rank, size, enabled. simpl.
    split; [|split; [|split; [|split]]]; done. }
  unfold rank, get_processor_name, enabled. simpl. rewrite He1. simpl.
  intros [= <- <- <-]. simpl. split; [|split; [|split; [|split]]]; done.
Qed.

(** X12: [finalize] shuts the libraries down only after an [init] that
    started them itself: if the application had initialized MPI before
    [init] (or [MPI_Initialized] failed), then [init] followed by
    [finalize] issues neither [MPI_Init_thread] nor [MPI_Finalize] nor
    their LCI counterparts, and [finalize] issues no call at all. *)
Theorem foreign_mpi_left_alone
    (mpi mpi' : mpi_library) (env env' : mpi_environment)
    (rtcfg rtcfg' : runtime_configuration) (r : option exception) :
  init_with mpi env rtcfg = (env', rtcfg', r) ->
  enabled_ env = false ->
  snd (MPI_Initialized mpi) = true \/ fst (MPI_Initialized mpi) <> MPI_SUCCESS ->
  existsb starts_or_stops (calls env) = false ->
  finalize mpi' env' = env'
  /\ existsb starts_or_stops (calls (finalize mpi' env')) = false.
Proof.
  unfold init_with, init. intros Hinit Hen Hforeign Hcalls.
  rewrite Hen in Hinit. simpl in Hinit.
  assert (has_called_init_ env' = false
          /\ existsb starts_or_stops (calls env') = false) as [Hh Hc].
  { destruct (check_mpi_environment _ _ _ _ _ _ rtcfg); simpl in Hinit.
    2:{ by simplify_eq. }
    match type of Hinit with
    | context [init_thread _ _ ?req ?min ?p ?e] =>
        destruct (init_thread MPI_SUCCESS mpi req min p e)
          as [[env1 provided1] r1] eqn:Hit;
        destruct (init_thread_spec _ _ _ _ _ _ _ _ Hit) as (He1 & _ & _ & Hf)
    end.
    destruct (Hf Hforeign) as (Hh1 & Hc1 & ->). simpl in Hc1.
    assert (existsb starts_or_stops (calls env1) = false) as Hc1'.
    { rewrite Hc1, existsb_app, Hcalls. done. }
    destruct (negb (MPI_SUCCESS =? _)%Z && negb (MPI_ERR_OTHER =? _)%Z).
    { simplify_eq. simpl. split; [first [done|exact Hh1]|].
      by rewrite existsb_app, Hc1'. }
    simpl in Hinit.
    destruct (_ =? MPI_THREAD_FUNNELED)%Z.
    { simplify_eq. simpl. split; [first [done|exact Hh1]|].
      by rewrite existsb_app, Hc1'. }
    unfold rank, get_processor_name, enabled in Hinit. simpl in Hinit, He1.
    rewrite He1 in Hinit. simpl in Hinit.
    simplify_eq. simpl. split; [first [done|exact Hh1]|].
    by rewrite !existsb_app, Hc1'. }
  assert (finalize mpi' env' = env') as ->; [|done].
  unfold finalize, has_called_init. rewrite Hh. by rewrite andb_false_r.
Qed.

(** X13: a [scoped_try_lock] releases [mtx_] exactly once if it acquired
    it and never otherwise, however often [unlock] is called before it is
    destroyed; in multi-threaded mode it does not touch [mtx_]. *)
Theorem scoped_try_lock_balanced
    (env : mpi_environment) (try_lock : bool) (n : nat) :
  scoped_try_lock_lifetime MPI_THREAD_SERIALIZED env try_lock n
  = if multi_threaded MPI_THREAD_SERIALIZED env then []
    else mtx_try_lock try_lock :: (if try_lock then [mtx_unlock] else []).
Proof.
  unfold scoped_try_lock_lifetime, scoped_try_lock_ctor, scoped_try_lock_dtor.
  assert (forall m l,
             multi_threaded MPI_THREAD_SERIALIZED env = true ->
             scoped_try_lock_unlocks MPI_THREAD_SERIALIZED env m l = (l, []))
    as Hmt.
  { intros m l Hm. induction m as [|m IH]; simpl; [done|].
    unfold scoped_try_lock_unlock. rewrite Hm. simpl. by rewrite IH. }
  assert (forall m,
             multi_threaded MPI_THREAD_SERIALIZED env = false ->
             scoped_try_lock_unlocks MPI_THREAD_SERIALIZED env m
               {| locked := false |} = ({| locked := false |}, []))
    as Hfree.
  { intros m Hm. induction m as [|m IH]; simpl; [done|].
    unfold scoped_try_lock_unlock. rewrite Hm. simpl. by rewrite IH. }
  destruct (multi_threaded MPI_THREAD_SERIALIZED env) eqn:Hm; simpl.
  - by rewrite Hmt.
  - destruct try_lock; [|by rewrite Hfree].
    destruct n as [|n]; simpl; [done|].
    unfold scoped_try_lock_unlock. rewrite Hm. simpl. by rewrite Hfree.
Qed.

(** X14: a [scoped_lock] acquires [mtx_] once and releases it once when
    destroyed and once more for every call of [unlock], which it does not
    remember; in multi-threaded mode it does not touch [mtx_]. *)
Theorem scoped_lock_releases (env : mpi_environment) (n : nat) :
  scoped_lock_lifetime MPI_THREAD_SERIALIZED env n
  = if multi_threaded MPI_THREAD_SERIALIZED env then []
    else mtx_lock :: replicate (S n) mtx_unlock.
Proof.
  unfold scoped_lock_lifetime, scoped_lock_ctor, scoped_lock_dtor,
    scoped_lock_unlock.
  destruct (multi_threaded MPI_THREAD_SERIALIZED env); simpl.
  - induction n as [|n IH]; simpl; [done|]. exact IH.
  - f_equal. induction n as [|n IH]; simpl; [done|]. by rewrite IH.
Qed.

End Facts.

Lemma init_postconditions_witness :
  let mpi := mk_library (0%Z, false) (fun _ => (0%Z, 1%Z))
               (fun _ => 0%Z) (fun _ => 1%Z) "node" false in
  let env := mk_environment false false 0 MPI_COMM_NULL [] in
  let env' :=
    mk_environment false false 1 (MPI_Comm_dup MPI_COMM_WORLD)
      [call_MPI_Initialized; call_LCI_initialize; call_MPI_Init_thread 0;
       call_MPI_Comm_rank MPI_COMM_WORLD; call_MPI_Comm_size MPI_COMM_WORLD;
       call_MPI_Bcast; call_MPI_Gather; call_MPI_Comm_dup MPI_COMM_WORLD] in
  enabled_ env' = false /\ has_called_init_ env' = false
  /\ rank mpi env' = (env', (-1)%Z) /\ size mpi env' = (env', (-1)%Z).
Proof.
  exact (proj1 (proj2 (proj2
    (init_postconditions 0 15 0 1 2 3 (list (string * string))
       (fun cfg k v => cfg ++ [(k, v)]) (fun _ _ d => d)
       (fun _ k d => if String.eqb k "hpx.parcel.tcp.enable" then 0%Z else d)
       (fun cfg _ => cfg) (fun s _ => [s]) (fun _ => Some "1")
       (fun _ => "0") "MV2_COMM_WORLD_RANK" false
       (mk_library (0%Z, false) (fun _ => (0%Z, 1%Z))
          (fun _ => 0%Z) (fun _ => 1%Z) "node" false)
       (mk_environment false false 0 MPI_COMM_NULL [])
       _ [] _ _ eq_refl)))
    ltac:(discriminate) ltac:(discriminate)).
Defined.

Lemma foreign_mpi_left_alone_witness :
  let mpi' := mk_library (0%Z, true) (fun _ => (0%Z, 3%Z))
                (fun _ => 0%Z) (fun _ => 1%Z) "node" false in
  let env' :=
    mk_environment true false 0 (MPI_Comm_dup MPI_COMM_WORLD)
      [call_MPI_Initialized; call_MPI_Comm_dup MPI_COMM_WORLD;
       call_MPI_Comm_rank (MPI_Comm_dup MPI_COMM_WORLD);
       call_MPI_Get_processor_name] in
  finalize mpi' env' = env'
  /\ existsb starts_or_stops (calls (finalize mpi' env')) = false.
Proof.
  exact (foreign_mpi_left_alone 0 15 0 1 2 3 (list (string * string))
           (fun cfg k v => cfg ++ [(k, v)]) (fun _ _ d => d)
           (fun _ k d => if String.eqb k "hpx.parcel.tcp.enable" then 0%Z else d)
           (fun cfg _ => cfg) (fun s _ => [s]) (fun _ => Some "1")
           (fun _ => "0") "MV2_COMM_WORLD_RANK" false
           (mk_library (0%Z, true) (fun _ => (0%Z, 3%Z))
              (fun _ => 0%Z) (fun _ => 1%Z) "node" false)
           (mk_library (0%Z, true) (fun _ => (0%Z, 3%Z))
              (fun _ => 0%Z) (fun _ => 1%Z) "node" false)
           (mk_environment false false 0 MPI_COMM_NULL [])
           _ [] _ _ eq_refl eq_refl (or_introl eq_refl) eq_refl).
Defined.

End MpiEnvironmentFacts.
